(** * Photon: the WordNet noun vocabulary generator

    A shallow embedding of [scripts/generate_wordnet_vocab.py] and the
    properties of its output.

    Python [str] values are modelled as [string]: the sequence of bytes of
    their UTF-8 encoding (the order on UTF-8 byte sequences is the order on
    code-point sequences that Python's [<] on [str] uses).  Python [int]
    values are [Z] (offsets) or [nat] (lengths).  Python [set]s used only for
    membership are [gset]s.  The lexical database [nltk.corpus.wordnet] is an
    interface ([WordNet]) over a finite type of synset objects. *)

From Stdlib Require Import Ascii.
From stdpp Require Import base decidable option numbers list sets gmap
  finite strings pretty sorting.

Set Warnings "-clear-no-such-hyp".

Local Open Scope Z_scope.
Local Open Scope nat_scope.

(** ** Exceptions and results *)

Inductive exn : Type :=
  | IndexError   (* [lemmas()[0]] on an empty list *)
  | OSError.     (* [open] or [write] failed *)

(** The outcome of running a piece of the script: a value, an exception, or
    a loop that was given too little fuel to finish. *)
Inductive result (A : Type) : Type :=
  | Ok (a : A)
  | Raise (e : exn)
  | OutOfFuel.
Arguments Ok {A} a.
Arguments Raise {A} e.
Arguments OutOfFuel {A}.

Definition result_bind {A B} (r : result A) (k : A → result B) : result B :=
  match r with
  | Ok a => k a
  | Raise e => Raise e
  | OutOfFuel => OutOfFuel
  end.

Declare Scope result_scope.
Delimit Scope result_scope with result.
Notation "'let!' x ':=' r 'in' k" := (result_bind r (λ x, k))
  (at level 10, x name, r at level 100, k at level 200,
   format "'[v' 'let!'  x  ':='  r  'in' '/' k ']'") : result_scope.
Local Open Scope result_scope.

(** ** Characters and strings *)

Definition TAB : ascii := "009"%char.
Definition NEWLINE : ascii := "010"%char.

Definition tab : string := String TAB "".
Definition nl : string := String NEWLINE "".

(** [c in s] for a character [c]. *)
Fixpoint occurs (c : ascii) (s : string) : bool :=
  match s with
  | EmptyString => false
  | String d s' => if decide (c = d) then true else occurs c s'
  end.

(** [sep.join(l)] *)
Definition join (sep : string) (l : list string) : string :=
  String.concat sep l.

(** [str(n)] for a non-negative [int]. *)
Definition str (n : nat) : string := pretty n.

(** [f"{n:08d}"]: sign, then the decimal digits, zero-filled between the
    sign and the digits up to a minimum width of 8. *)
Definition zeros (k : nat) : string :=
  String.string_of_list_ascii (replicate k "0"%char).

Definition format_08d (n : Z) : string :=
  let sign := if decide (n < 0)%Z then "-" else "" in
  let digits := pretty (Z.abs_N n) in
  sign +:+ zeros (8 - String.length sign - String.length digits) +:+ digits.

(** The order of [list.sort()] on [str]. *)
Definition sort (lines : list string) : list string :=
  merge_sort String.le lines.

(** *** Reading the output back

    The notions the format is described with: the lines of a text, the first
    tab-delimited column of a line, the decimal value of a numeral. *)

Fixpoint lines_of (s : string) : list string :=
  match s with
  | EmptyString => []
  | String c s' =>
      if decide (c = NEWLINE) then "" :: lines_of s'
      else match lines_of s' with
           | [] => [String c ""]
           | l :: ls => String c l :: ls
           end
  end.

Fixpoint first_column (s : string) : string :=
  match s with
  | EmptyString => ""
  | String c s' => if decide (c = TAB) then "" else String c (first_column s')
  end.

(** The rest of a line after its first tab ([""] when there is none). *)
Fixpoint after_tab (s : string) : string :=
  match s with
  | EmptyString => ""
  | String c s' => if decide (c = TAB) then s' else after_tab s'
  end.

Definition second_column (s : string) : string := first_column (after_tab s).

Definition digit_value (c : ascii) : option N :=
  let n := N_of_ascii c in
  if decide (48 ≤ n ∧ n ≤ 57)%N then Some (n - 48)%N else None.

Fixpoint all_digits (s : string) : bool :=
  match s with
  | EmptyString => true
  | String c s' => bool_decide (is_Some (digit_value c)) && all_digits s'
  end.

Fixpoint digits_value (acc : N) (s : string) : option N :=
  match s with
  | EmptyString => Some acc
  | String c s' =>
      match digit_value c with
      | Some d => digits_value (10 * acc + d)%N s'
      | None => None
      end
  end.

(** [int(s)] for an optionally signed, non-empty decimal numeral. *)
Definition decimal_value (s : string) : option Z :=
  match s with
  | EmptyString => None
  | String c s' =>
      if decide (c = "-"%char) then
        match s' with
        | EmptyString => None
        | _ => (λ n, - Z.of_N n)%Z <$> digits_value 0 s'
        end
      else Z.of_N <$> digits_value 0 s
  end.

Fixpoint strip_prefix (p s : string) : option string :=
  match p, s with
  | EmptyString, _ => Some s
  | String a p', String b s' =>
      if decide (a = b) then strip_prefix p' s' else None
  | _, _ => None
  end.

(** The longest prefix of decimal digits, and what follows it. *)
Fixpoint span_digits (s : string) : string * string :=
  match s with
  | EmptyString => ("", "")
  | String c s' =>
      match digit_value c with
      | Some _ => let '(d, r) := span_digits s' in (String c d, r)
      | None => ("", s)
      end
  end.

Definition header3_prefix : string := "# Generated from WordNet 3.0 — ".
Definition header3_suffix : string := " terms".

(** The count [<N>] a third header line states. *)
Definition stated_count (line : string) : option nat :=
  match strip_prefix header3_prefix line with
  | Some rest =>
      let '(d, r) := span_digits rest in
      if decide (d ≠ "" ∧ r = header3_suffix)
      then N.to_nat <$> digits_value 0 d else None
  | None => None
  end.

(** ** The lexical database *)

(** A WordNet lemma object; only [name()] is used. *)
Record WnLemma : Type := { name : string }.

(** The part of [nltk.corpus.wordnet] the script uses.  [Synset] is the
    type of the synset objects of the loaded database, a finite graph. *)
Class WordNet (Synset : Type) `{Finite Synset} : Type := {
  offset : Synset → Z;
  lemmas : Synset → list WnLemma;
  hypernyms : Synset → list Synset;
  (** [wn.all_synsets(pos=wn.NOUN)], in enumeration order *)
  all_synsets : list Synset
}.

Section generate.
Context {Synset : Type} `{Finite Synset} {db : WordNet Synset}.

(** The [while True] loop of [get_hypernym_chain], over its three local
    variables. *)
Fixpoint get_hypernym_chain_loop (fuel : nat) (chain : list string)
    (current : Synset) (seen : gset Z) : result (list string) :=
  match fuel with
  | 0 => OutOfFuel
  | S fuel' =>
      match hypernyms current with
      | [] => Ok chain
      | parent :: _ =>
          if decide (offset parent ∈ seen) then Ok chain
          else
            let seen := seen ∪ {[offset parent]} in
            match lemmas parent with
            | [] => Raise IndexError
            | l :: _ =>
                get_hypernym_chain_loop fuel' (chain ++ [name l]) parent seen
            end
      end
  end.

(** [get_hypernym_chain(synset)]: the loop from [chain = []],
    [current = synset], [seen = set()], with one more unit of fuel than the
    database has synsets (which always suffices, as proved below). *)
Definition get_hypernym_chain (synset : Synset) : result (list string) :=
  get_hypernym_chain_loop (S (card Synset)) [] synset ∅.

(** [f"{name}\t{synset_id}\t{chain_str}"] *)
Definition render_line (term synset_id chain_str : string) : string :=
  term +:+ tab +:+ synset_id +:+ tab +:+ chain_str.

(** ["|".join(hypernym_chain) if hypernym_chain else ""] *)
Definition chain_str (hypernym_chain : list string) : string :=
  match hypernym_chain with
  | [] => ""
  | _ => join "|" hypernym_chain
  end.

(** The [for synset in noun_synsets] loop of [main], over [lines] and
    [seen_names]. *)
Fixpoint collect_lines (noun_synsets : list Synset) (lines : list string)
    (seen_names : gset string) : result (list string) :=
  match noun_synsets with
  | [] => Ok lines
  | synset :: rest =>
      match lemmas synset with
      | [] => Raise IndexError
      | lemma :: _ =>
          let name := name lemma in
          if decide (name ∈ seen_names) then
            collect_lines rest lines seen_names
          else
            let seen_names := seen_names ∪ {[name]} in
            let synset_id := format_08d (offset synset) in
            let! hypernym_chain := get_hypernym_chain synset in
            let chain_str := chain_str hypernym_chain in
            collect_lines rest
              (lines ++ [render_line name synset_id chain_str]) seen_names
      end
  end.

End generate.

(** ** The file system and the diagnostic stream *)

(** The environment the script runs in.  [files] maps a path to the bytes of
    the file there; [unwritable] are the paths [open(path, "w")] fails on
    (missing parent directory, no permission); [quota] is the number of bytes
    the device still accepts before a write fails ([None]: no limit);
    [stderr] collects the lines printed to the diagnostic stream. *)
Record world : Type := World {
  files : gmap string string;
  unwritable : gset string;
  quota : option nat;
  stderr : list string
}.

(** Statements with effects on the world. *)
Definition io (A : Type) : Type := world → result A * world.

Definition io_ret {A} (a : A) : io A := λ w, (Ok a, w).

Definition io_bind {A B} (m : io A) (k : A → io B) : io B := λ w,
  match m w with
  | (Ok a, w') => k a w'
  | (Raise e, w') => (Raise e, w')
  | (OutOfFuel, w') => (OutOfFuel, w')
  end.

Definition io_lift {A} (r : result A) : io A := λ w, (r, w).

Declare Scope io_scope.
Delimit Scope io_scope with io.
Notation "x ← m ; k" := (io_bind m (λ x, k))
  (at level 20, m at level 100, k at level 200, only parsing) : io_scope.
Notation "m ;; k" := (io_bind m (λ _, k))
  (at level 100, k at level 200, right associativity) : io_scope.

(** [print(line, file=sys.stderr)] *)
Definition eprint (line : string) : io () := λ w,
  (Ok (), World (files w) (unwritable w) (quota w) (stderr w ++ [line])).

(** [open(path, "w")]: the file is created or truncated at once.  The file
    object is identified with its path. *)
Definition open_w (path : string) : io string := λ w,
  if decide (path ∈ unwritable w) then (Raise OSError, w)
  else (Ok path,
        World (<[path := ""]> (files w)) (unwritable w) (quota w) (stderr w)).

Definition append_to (path data : string) (fs : gmap string string)
    : gmap string string :=
  <[path := default "" (fs !! path) +:+ data]> fs.

(** The first [k] bytes of [s]. *)
Fixpoint string_take (k : nat) (s : string) : string :=
  match k, s with
  | S k', String c s' => String c (string_take k' s')
  | _, _ => ""
  end.

(** [f.write(data)]: the bytes are appended; when the device accepts only a
    part of them, that part is appended and the write raises. *)
Definition write (f : string) (data : string) : io () := λ w,
  match quota w with
  | None =>
      (Ok (), World (append_to f data (files w)) (unwritable w) None (stderr w))
  | Some q =>
      if decide (String.length data ≤ q) then
        (Ok (), World (append_to f data (files w)) (unwritable w)
                  (Some (q - String.length data)) (stderr w))
      else
        (Raise OSError,
         World (append_to f (string_take q data) (files w)) (unwritable w)
           (Some 0) (stderr w))
  end.

(** [for line in lines: f.write(line + "\n")] *)
Fixpoint write_lines (f : string) (lines : list string) : io () :=
  match lines with
  | [] => io_ret ()
  | line :: rest => (write f (line +:+ nl) ;; write_lines f rest)%io
  end.

Definition header1 : string := "# WordNet nouns vocabulary for Photon".
Definition header2 : string :=
  "# Format: term<TAB>synset_id<TAB>hypernym_chain (pipe-separated)".
Definition header3 (n : nat) : string :=
  header3_prefix +:+ str n +:+ header3_suffix.

Definition default_path : string := "data/vocabulary/wordnet_nouns.txt".

(** [sys.argv[1] if len(sys.argv) > 1 else "data/vocabulary/wordnet_nouns.txt"] *)
Definition output_path_of (argv : list string) : string :=
  if decide (1 < length argv) then default default_path (argv !! 1)
  else default_path.

Section main.
Context {Synset : Type} `{Finite Synset} {db : WordNet Synset}.

Definition main (argv : list string) : io () :=
  (let output_path := output_path_of argv in
   let noun_synsets := all_synsets in
   eprint ("Found " +:+ str (length noun_synsets)
             +:+ " noun synsets in WordNet") ;;
   lines ← io_lift (collect_lines noun_synsets [] ∅) ;
   let lines := sort lines in
   f ← open_w output_path ;
   write f (header1 +:+ nl) ;;
   write f (header2 +:+ nl) ;;
   write f (header3 (length lines) +:+ nl) ;;
   write_lines f lines ;;
   eprint ("Wrote " +:+ str (length lines) +:+ " terms to " +:+ output_path))%io.
End main.

(** ** Notions the properties are stated with

    Nothing below is part of the script: these definitions name what the
    loops of the script go through (the synsets a walk moves to, the senses
    the builder keeps) and what the output file is read as. *)

(** A sequence of writes to one file. *)
Fixpoint write_all (f : string) (datas : list string) : io () :=
  match datas with
  | [] => io_ret ()
  | data :: rest => (write f data ;; write_all f rest)%io
  end.

(** The text of a complete output file with the data lines [lines]. *)
Definition output_text (lines : list string) : string :=
  header1 +:+ nl +:+ header2 +:+ nl +:+ header3 (length lines) +:+ nl
    +:+ String.concat "" ((λ line, line +:+ nl) <$> lines).

(** The data lines of an output file: all lines after the three header
    lines. *)
Definition data_lines (text : string) : list string := drop 3 (lines_of text).

Section notions.
Context {Synset : Type} `{Finite Synset} {db : WordNet Synset}.

(** The canonical term of a sense: the name of its first-listed lemma. *)
Definition canonical (synset : Synset) : option string :=
  name <$> head (lemmas synset).

Definition first_hypernym (synset : Synset) : option Synset :=
  head (hypernyms synset).

(** [k] steps along first-listed hypernyms. *)
Fixpoint iter_first_hypernym (k : nat) (synset : Synset) : option Synset :=
  match k with
  | 0 => Some synset
  | S k' => first_hypernym synset ≫= iter_first_hypernym k'
  end.

(** The synsets the loop takes as [parent] and moves to, in order: the
    trace of [current] after the start, read off hypernyms and offsets
    alone. *)
Fixpoint ancestors_loop (fuel : nat) (current : Synset) (seen : gset Z)
    : list Synset :=
  match fuel with
  | 0 => []
  | S fuel' =>
      match hypernyms current with
      | [] => []
      | parent :: _ =>
          if decide (offset parent ∈ seen) then []
          else parent :: ancestors_loop fuel' parent (seen ∪ {[offset parent]})
      end
  end.

(** The identifiers of the database: the walk's [seen] set stays inside. *)
Definition all_offsets : gset Z := list_to_set (offset <$> enum Synset).

Definition ancestors (synset : Synset) : list Synset :=
  ancestors_loop (S (card Synset)) synset ∅.

(** [chain] lists the canonical terms of the synsets of [path]. *)
Definition names_of (path : list Synset) (chain : list string) : Prop :=
  Forall2 (λ p term, canonical p = Some term) path chain.

(** The lexical vocabulary is controlled: no canonical term contains a tab
    or a newline. *)
Definition well_formed_terms : Prop :=
  ∀ synset term, canonical synset = Some term →
                 occurs TAB term = false ∧ occurs NEWLINE term = false.

(** The line the loop appends for a sense it does not skip. *)
Definition entry_line (synset : Synset) : option string :=
  match canonical synset, get_hypernym_chain synset with
  | Some term, Ok hypernym_chain =>
      Some (render_line term (format_08d (offset synset))
              (chain_str hypernym_chain))
  | _, _ => None
  end.

(** The senses the loop does not skip, in order: the trace of the
    [seen_names] test. *)
Fixpoint kept_synsets (noun_synsets : list Synset) (seen_names : gset string)
    : list Synset :=
  match noun_synsets with
  | [] => []
  | synset :: rest =>
      match canonical synset with
      | None => []
      | Some term =>
          if decide (term ∈ seen_names) then kept_synsets rest seen_names
          else synset :: kept_synsets rest (seen_names ∪ {[term]})
      end
  end.
End notions.

(** *** Reading a data line back

    What a reader of the file does with a data line: count its tabs, take
    its third field, split the field at the vertical bars. *)

Definition BAR : ascii := "|"%char.

Fixpoint count_char (c : ascii) (s : string) : nat :=
  match s with
  | EmptyString => 0
  | String d s' => (if decide (c = d) then 1 else 0) + count_char c s'
  end.

(** What follows the second tab of a line. *)
Definition third_column (s : string) : string := after_tab (after_tab s).

(** [s.split(c)]: the pieces of [s] between the occurrences of [c]. *)
Fixpoint split_on (c : ascii) (s : string) : list string :=
  match s with
  | EmptyString => [""]
  | String d s' =>
      if decide (d = c) then "" :: split_on c s'
      else match split_on c s' with
           | [] => [String d ""]
           | piece :: pieces => String d piece :: pieces
           end
  end.

(** [field.split("|") if field else []] *)
Definition chain_of_field (field : string) : list string :=
  if decide (field = "") then [] else split_on BAR field.

(** No character of [s] is a control character (code below 32). *)
Fixpoint no_control (s : string) : bool :=
  match s with
  | EmptyString => true
  | String c s' => bool_decide (32 ≤ N_of_ascii c)%N && no_control s'
  end.

Section term_notions.
Context {Synset : Type} `{Finite Synset} {db : WordNet Synset}.

(** Canonical terms a reader can split the lines at: not empty, without
    tab and without vertical bar. *)
Definition splittable_terms : Prop :=
  ∀ synset term, canonical synset = Some term →
                 term ≠ "" ∧ occurs TAB term = false ∧ occurs BAR term = false.

(** Canonical terms without control characters. *)
Definition printable_terms : Prop :=
  ∀ synset term, canonical synset = Some term → no_control term = true.
End term_notions.

Section visited_notions.
Context {Synset : Type} `{Finite Synset} {db : WordNet Synset}.


End visited_notions.

(** Two databases agree on what the script reads when corresponding synsets
    have the same offset, the same first lemma name and corresponding first
    hypernyms, and the enumerations correspond: the lemmas and hypernyms
    after the first may differ. *)
Definition same_first_entries {S1 S2 : Type} `{Finite S1} `{Finite S2}
    (db1 : WordNet S1) (db2 : WordNet S2) (R : S1 → S2 → Prop) : Prop :=
  (∀ x y, R x y →
     offset x = offset y
     ∧ canonical (db := db1) x = canonical (db := db2) y
     ∧ option_Forall2 R (first_hypernym (db := db1) x)
         (first_hypernym (db := db2) y))
  ∧ Forall2 R (all_synsets (WordNet := db1)) (all_synsets (WordNet := db2)).

(** Two loaded databases hold the same snapshot when their synset objects
    correspond ([R]) so that corresponding synsets have the same offset, the
    same lemmas and corresponding hypernym lists, and the enumerations of
    the noun senses correspond, in order. *)
Definition same_snapshot {S1 S2 : Type} `{Finite S1} `{Finite S2}
    (db1 : WordNet S1) (db2 : WordNet S2) (R : S1 → S2 → Prop) : Prop :=
  (∀ x y, R x y →
     offset x = offset y
     ∧ lemmas x = lemmas y
     ∧ Forall2 R (hypernyms x) (hypernyms y))
  ∧ Forall2 R (all_synsets (WordNet := db1)) (all_synsets (WordNet := db2)).

(** ** Small databases

    Three synset objects and databases over them, used to run the script on
    concrete inputs. *)

Inductive node : Type := Na | Nb | Nc.

#[global] Instance node_eq_dec : EqDecision node.
Proof. solve_decision. Defined.

#[global] Program Instance node_finite : Finite node := {| enum := [Na; Nb; Nc] |}.
Next Obligation. by apply (bool_decide_unpack _). Qed.
Next Obligation. intros []; by apply (bool_decide_unpack _). Qed.

Definition lemmas_named (names : list string) : list WnLemma :=
  Build_WnLemma <$> names.

Definition node_db (off : node → Z) (names : node → list string)
    (hyp : node → list node) (all : list node) : WordNet node :=
  {| offset := off; lemmas := λ x, lemmas_named (names x);
     hypernyms := hyp; all_synsets := all |}.

(** The three senses of the specification's first scenario. *)
Definition dog_db : WordNet node :=
  node_db (λ x, match x with Na => 1 | Nb => 2 | Nc => 3 end%Z)
          (λ x, match x with Na => ["dog"; "domestic_dog"]
                           | Nb => ["canine"; "canid"] | Nc => ["mammal"] end)
          (λ x, match x with Na => [Nb] | Nb => [Nc] | Nc => [] end)
          [Na; Nb; Nc].

(** Two distinct ancestors of [Na] share the canonical term ["unit"]. *)
Definition homograph_db : WordNet node :=
  node_db (λ x, match x with Na => 10 | Nb => 20 | Nc => 30 end%Z)
          (λ x, match x with Na => ["inch"] | Nb => ["unit"; "linear_unit"]
                           | Nc => ["unit"; "whole"] end)
          (λ x, match x with Na => [Nb] | Nb => [Nc] | Nc => [] end)
          [Na; Nb; Nc].

(** Cyclic hypernym data: [Na] and [Nb] are each other's first hypernym,
    and [Nc] is its own. *)
Definition cycle_db : WordNet node :=
  node_db (λ x, match x with Na => 1 | Nb => 2 | Nc => 3 end%Z)
          (λ x, match x with Na => ["egg"] | Nb => ["hen"] | Nc => ["self"] end)
          (λ x, match x with Na => [Nb; Nc] | Nb => [Na] | Nc => [Nc] end)
          [Na; Nb; Nc].

(** A sense whose offset needs nine digits. *)
Definition wide_db : WordNet node :=
  node_db (λ x, match x with Na => 100000000 | Nb => 2 | Nc => 3 end%Z)
          (λ x, match x with Na => ["colossus"] | Nb => ["b"] | Nc => ["c"] end)
          (λ _, [])
          [Na; Nb; Nc].

(** [Nb], the first hypernym of [Na], has no lemma. *)
Definition nameless_db : WordNet node :=
  node_db (λ x, match x with Na => 1 | Nb => 2 | Nc => 3 end%Z)
          (λ x, match x with Na => ["leaf"] | Nb => [] | Nc => ["root"] end)
          (λ x, match x with Na => [Nb] | Nb => [Nc] | Nc => [] end)
          [Nc; Na].

(** The senses of [dog_db] as other objects, in a larger object universe:
    [Some x] stands for [x], and [None] is a synset outside the noun
    inventory. *)
Definition dog_db_copy : WordNet (option node) :=
  {| offset := λ x, match x with Some y => offset (WordNet := dog_db) y
                               | None => 99%Z end;
     lemmas := λ x, match x with Some y => lemmas (WordNet := dog_db) y
                               | None => [] end;
     hypernyms := λ x, match x with
                       | Some y => Some <$> hypernyms (WordNet := dog_db) y
                       | None => [None]
                       end;
     all_synsets := Some <$> all_synsets (WordNet := dog_db) |}.

(** Two senses with the canonical term ["bank"]. *)
Definition bank_db : WordNet node :=
  node_db (λ x, match x with Na => 9000 | Nb => 8000 | Nc => 7000 end%Z)
          (λ x, match x with Na => ["bank"; "depository"]
                           | Nb => ["bank"; "riverside"]
                           | Nc => ["slope"] end)
          (λ x, match x with Na => [] | Nb => [Nc] | Nc => [] end)
          [Na; Nb; Nc].

Definition empty_world : world := World ∅ ∅ None [].

(** A vocabulary file is in place and the device accepts 10 more bytes. *)
Definition full_disk_world : world :=
  World {[ "out.txt" := "previous vocabulary" ]} ∅ (Some 10) [].

Definition out_argv : list string := ["generate_wordnet_vocab.py"; "out.txt"].


(** [dog_db] with other second lemmas and further hypernyms. *)
Definition dog_db_alt : WordNet node :=
  node_db (λ x, match x with Na => 1 | Nb => 2 | Nc => 3 end%Z)
          (λ x, match x with Na => ["dog"; "Canis_familiaris"; "pooch"]
                           | Nb => ["canine"] | Nc => ["mammal"; "mammalian"]
                           end)
          (λ x, match x with Na => [Nb; Nc] | Nb => [Nc; Na] | Nc => [] end)
          [Na; Nb; Nc].



(** * Properties *)

(** ** The ancestor chain resolver *)

Section walk_facts.
Context {Synset : Type} `{Finite Synset} {db : WordNet Synset}.
Implicit Types (synset current parent : Synset) (seen : gset Z).
Implicit Types (chain : list string) (path : list Synset).

Lemma offset_in_all synset : offset synset ∈ all_offsets.
Proof.
  unfold all_offsets. apply elem_of_list_to_set, list_elem_of_fmap.
  exists synset. split; [done | apply elem_of_enum].
Qed.

Lemma size_list_to_set_le (l : list Z) : size (list_to_set (C := gset Z) l) ≤ length l.
Proof.
  induction l as [|x l IH]; [by rewrite list_to_set_nil, size_empty|].
  rewrite list_to_set_cons. simpl.
  - destruct (decide (x ∈ (list_to_set l : gset Z))) as [Hin|Hnin].
    + replace ({[x]} ∪ list_to_set l) with (list_to_set (C := gset Z) l)
        by set_solver.
      lia.
    + rewrite size_union by set_solver. rewrite size_singleton. lia.
Qed.

Lemma size_all_offsets : size all_offsets ≤ card Synset.
Proof.
  unfold all_offsets, card. etrans; [apply size_list_to_set_le|].
  by rewrite length_fmap.
Qed.

(** The measure of the loop: the identifiers not yet seen. *)
Lemma unseen_decreases parent seen :
  offset parent ∉ seen →
  size (all_offsets ∖ (seen ∪ {[offset parent]})) < size (all_offsets ∖ seen).
Proof.
  intros Hnew. apply subset_size.
  pose proof (offset_in_all parent). set_solver.
Qed.

Lemma loop_fuel_enough fuel chain current seen :
  size (all_offsets ∖ seen) < fuel →
  get_hypernym_chain_loop fuel chain current seen ≠ OutOfFuel.
Proof.
  revert chain current seen.
  induction fuel as [|fuel IH]; intros chain current seen Hfuel; [lia|].
  simpl. destruct (hypernyms current) as [|parent hs]; [done|].
  case_decide as Hseen; [done|].
  destruct (lemmas parent) as [|l ls]; [done|].
  apply IH. pose proof (unseen_decreases parent seen Hseen). lia.
Qed.

Lemma loop_fuel_mono fuel fuel' chain current seen :
  get_hypernym_chain_loop fuel chain current seen ≠ OutOfFuel →
  fuel ≤ fuel' →
  get_hypernym_chain_loop fuel' chain current seen
  = get_hypernym_chain_loop fuel chain current seen.
Proof.
  revert fuel' chain current seen.
  induction fuel as [|fuel IH]; intros fuel' chain current seen Hres Hle;
    [done|].
  destruct fuel' as [|fuel']; [lia|]. simpl in *.
  destruct (hypernyms current) as [|parent hs]; [done|].
  case_decide; [done|].
  destruct (lemmas parent) as [|l ls]; [done|].
  apply IH; [done | lia].
Qed.

Lemma ancestors_loop_fuel fuel fuel' current seen :
  size (all_offsets ∖ seen) < fuel → fuel ≤ fuel' →
  ancestors_loop fuel' current seen = ancestors_loop fuel current seen.
Proof.
  revert fuel' current seen.
  induction fuel as [|fuel IH]; intros fuel' current seen Hfuel Hle; [lia|].
  destruct fuel' as [|fuel']; [lia|]. simpl.
  destruct (hypernyms current) as [|parent hs]; [done|].
  case_decide as Hseen; [done|]. f_equal.
  apply IH; [|lia]. pose proof (unseen_decreases parent seen Hseen). lia.
Qed.

(** The chain is the list of canonical terms along the trace; the loop
    raises exactly when a synset of the trace has no lemma. *)
Lemma loop_ancestors fuel chain current seen :
  match get_hypernym_chain_loop fuel chain current seen with
  | Ok chain' =>
      ∃ terms, names_of (ancestors_loop fuel current seen) terms
               ∧ chain' = chain ++ terms
  | Raise e =>
      e = IndexError
      ∧ ∃ p, p ∈ ancestors_loop fuel current seen ∧ lemmas p = []
  | OutOfFuel => True
  end.
Proof.
  revert chain current seen.
  induction fuel as [|fuel IH]; intros chain current seen; simpl; [done|].
  destruct (hypernyms current) as [|parent hs].
  { exists []. split; [constructor | by rewrite app_nil_r]. }
  case_decide as Hseen.
  { exists []. split; [constructor | by rewrite app_nil_r]. }
  destruct (lemmas parent) as [|l ls] eqn:Hl.
  { split; [done|]. exists parent. split; [left | done]. }
  specialize (IH (chain ++ [name l]) parent (seen ∪ {[offset parent]})).
  destruct (get_hypernym_chain_loop _ _ _ _) as [chain'|e|]; [| |done].
  - destruct IH as (terms & Hnames & ->). exists (name l :: terms). split.
    + constructor; [|done]. unfold canonical. by rewrite Hl.
    + by rewrite <-app_assoc.
  - destruct IH as (-> & p & Hp & Hnil). split; [done|].
    exists p. split; [by right | done].
Qed.

Lemma loop_raises fuel chain current seen p :
  p ∈ ancestors_loop fuel current seen → lemmas p = [] →
  get_hypernym_chain_loop fuel chain current seen = Raise IndexError.
Proof.
  revert chain current seen.
  induction fuel as [|fuel IH]; intros chain current seen; simpl.
  { by intros ?%elem_of_nil. }
  destruct (hypernyms current) as [|parent hs]; [by intros ?%elem_of_nil|].
  case_decide; [by intros ?%elem_of_nil|].
  intros [->|Hin]%elem_of_cons Hnil.
  - by rewrite Hnil.
  - destruct (lemmas parent) as [|l ls]; [done|]. by apply IH.
Qed.

Lemma ancestors_loop_unseen fuel current seen :
  NoDup (offset <$> ancestors_loop fuel current seen)
  ∧ ∀ p, p ∈ ancestors_loop fuel current seen → offset p ∉ seen.
Proof.
  revert current seen.
  induction fuel as [|fuel IH]; intros current seen; simpl.
  { split; [constructor | by intros p ?%elem_of_nil]. }
  destruct (hypernyms current) as [|parent hs].
  { split; [constructor | by intros p ?%elem_of_nil]. }
  case_decide as Hseen.
  { split; [constructor | by intros p ?%elem_of_nil]. }
  destruct (IH parent (seen ∪ {[offset parent]})) as [Hnd Hout]. split.
  - rewrite fmap_cons. constructor; [|done].
    intros (q & Hq & Hin)%list_elem_of_fmap.
    apply Hout in Hin. set_solver.
  - intros p [->|Hin]%elem_of_cons; [done|].
    apply Hout in Hin. set_solver.
Qed.

Lemma iter_first_hypernym_add a b synset :
  iter_first_hypernym (a + b) synset
  = iter_first_hypernym a synset ≫= iter_first_hypernym b.
Proof.
  revert synset. induction a as [|a IH]; intros synset; simpl; [done|].
  destruct (first_hypernym synset) as [parent|]; simpl; [apply IH | done].
Qed.




Lemma ancestors_loop_iter fuel current seen i p :
  ancestors_loop fuel current seen !! i = Some p →
  iter_first_hypernym (S i) current = Some p.
Proof.
  revert current seen i.
  induction fuel as [|fuel IH]; intros current seen i; simpl; [done|].
  unfold first_hypernym.
  destruct (hypernyms current) as [|parent hs]; [done|].
  case_decide; [done|]. simpl.
  destruct i as [|i]; simpl; [by intros [= ->]|].
  intros Hi. by apply IH in Hi.
Qed.

(** Why the trace ends: the next candidate does not exist or is known. *)
Lemma ancestors_loop_stop fuel current seen parent :
  size (all_offsets ∖ seen) < fuel →
  iter_first_hypernym (S (length (ancestors_loop fuel current seen))) current
    = Some parent →
  offset parent ∈ seen
  ∨ offset parent ∈ offset <$> ancestors_loop fuel current seen.
Proof.
  revert current seen.
  induction fuel as [|fuel IH]; intros current seen Hfuel; [lia|].
  simpl. unfold first_hypernym.
  destruct (hypernyms current) as [|q hs]; [done|].
  case_decide as Hseen; simpl.
  { intros [= ->]. by left. }
  intros Hnext. apply IH in Hnext as [Hin|Hin].
  - apply elem_of_union in Hin as [?|Heq%elem_of_singleton]; [by left|].
    right. rewrite Heq. left.
  - right. by right.
  - pose proof (unseen_decreases q seen Hseen). lia.
Qed.

Lemma ancestors_length fuel current seen :
  length (ancestors_loop fuel current seen) ≤ card Synset.
Proof.
  destruct (ancestors_loop_unseen fuel current seen) as [Hnd _].
  rewrite <-(length_fmap offset).
  rewrite <-(size_list_to_set (C := gset Z)) by done.
  etrans; [|apply size_all_offsets]. apply subseteq_size.
  intros z (p & -> & _)%elem_of_list_to_set%list_elem_of_fmap.
  apply offset_in_all.
Qed.

Lemma card_fuel_enough : size (all_offsets ∖ (∅ : gset Z)) < S (card Synset).
Proof.
  pose proof size_all_offsets.
  assert (all_offsets ∖ (∅ : gset Z) ⊆ all_offsets) as Hsub by set_solver.
  apply subseteq_size in Hsub. lia.
Qed.

Lemma get_hypernym_chain_ancestors synset :
  match get_hypernym_chain synset with
  | Ok chain => names_of (ancestors synset) chain
  | Raise e => e = IndexError ∧ ∃ p, p ∈ ancestors synset ∧ lemmas p = []
  | OutOfFuel => False
  end.
Proof.
  pose proof (loop_ancestors (S (card Synset)) [] synset ∅) as Hloop.
  pose proof (loop_fuel_enough (S (card Synset)) [] synset ∅ card_fuel_enough)
    as Hfuel.
  unfold get_hypernym_chain, ancestors.
  destruct (get_hypernym_chain_loop _ _ _ _) as [chain|e|]; [|done..].
  by destruct Hloop as (terms & Hnames & ->).
Qed.

(** C4: the ancestor-chain walk terminates.  Each iteration either stops
    with the chain unchanged (no hypernym, or a first hypernym whose
    identifier is in the visited set), or takes a parent whose identifier was
    not yet visited, which strictly shrinks the set of unvisited identifiers
    of the database; so with fuel beyond the number of synsets the walk
    always finishes, whatever the hypernym graph (cycles included), with the
    same outcome for any larger fuel and a chain no longer than the database
    has synsets. *)
Theorem get_hypernym_chain_terminates synset :
  (∀ fuel chain current seen,
     let r := get_hypernym_chain_loop (S fuel) chain current seen in
     match first_hypernym current with
     | None => r = Ok chain
     | Some parent =>
         if decide (offset parent ∈ seen) then r = Ok chain
         else
           size (all_offsets ∖ (seen ∪ {[offset parent]}))
             < size (all_offsets ∖ seen)
           ∧ match canonical parent with
             | None => r = Raise IndexError
             | Some term =>
                 r = get_hypernym_chain_loop fuel (chain ++ [term]) parent
                       (seen ∪ {[offset parent]})
             end
     end)
  ∧ get_hypernym_chain synset ≠ OutOfFuel
  ∧ (∀ fuel, card Synset < fuel →
       get_hypernym_chain_loop fuel [] synset ∅ = get_hypernym_chain synset)
  ∧ (∀ chain, get_hypernym_chain synset = Ok chain →
       length chain ≤ card Synset).
Proof.
  split; [|split; [|split]].
  - intros fuel chain current seen. simpl.
    unfold first_hypernym, canonical.
    destruct (hypernyms current) as [|parent hs]; simpl; [done|].
    case_decide as Hseen; [done|].
    split; [by apply unseen_decreases|].
    by destruct (lemmas parent).
  - apply loop_fuel_enough, card_fuel_enough.
  - intros fuel Hfuel. apply loop_fuel_mono; [|lia].
    apply loop_fuel_enough, card_fuel_enough.
  - intros chain Hchain.
    pose proof (get_hypernym_chain_ancestors synset) as Hanc.
    rewrite Hchain in Hanc. apply Forall2_length in Hanc as <-.
    apply ancestors_length.
Qed.

Lemma names_of_nodup path chain :
  names_of path chain → NoDup (offset <$> path) →
  (∀ p q, p ∈ path → q ∈ path →
          canonical p = canonical q → offset p = offset q) →
  NoDup chain.
Proof.
  induction 1 as [|p term path chain Hp Hnames IH]; intros Hnd Hinj.
  { constructor. }
  rewrite fmap_cons in Hnd. apply NoDup_cons in Hnd as [Hnotin Hnd].
  constructor.
  - intros Hin. apply Hnotin.
    eapply list_elem_of_lookup in Hin as [i Hi].
    destruct (Forall2_lookup_r _ _ _ _ _ Hnames Hi) as (q & Hq & Hcan).
    apply list_elem_of_fmap. exists q. split.
    + apply Hinj; [left | right; by eapply list_elem_of_lookup_2 | congruence].
    + by eapply list_elem_of_lookup_2.
  - apply IH; [done|]. intros p' q' ? ?. apply Hinj; by right.
Qed.

(** C1, as the code has it: the cycle guard works on sense identifiers.  The
    chain returned for a sense lists the canonical terms of the synsets the
    walk moved to, and no identifier (offset) occurs twice among those
    synsets; the chain has no repeated term whenever synsets of the walk
    with equal canonical terms have equal identifiers. *)
Theorem chain_identifiers_distinct synset chain :
  get_hypernym_chain synset = Ok chain →
  names_of (ancestors synset) chain
  ∧ NoDup (offset <$> ancestors synset)
  ∧ ((∀ p q, p ∈ ancestors synset → q ∈ ancestors synset →
             canonical p = canonical q → offset p = offset q) →
     NoDup chain).
Proof.
  intros Hchain.
  pose proof (get_hypernym_chain_ancestors synset) as Hanc.
  rewrite Hchain in Hanc.
  destruct (ancestors_loop_unseen (S (card Synset)) synset ∅) as [Hnd _].
  split; [done|]. split; [done|].
  by apply names_of_nodup.
Qed.

End walk_facts.

(** The walk on the specification's first scenario. *)
Example dog_chain :
  get_hypernym_chain (db := dog_db) Na = Ok ["canine"; "mammal"].
Proof. vm_compute. reflexivity. Qed.

(** C1, claimed without the proviso, fails: the chain of [Na] in
    [homograph_db] passes through two senses with the same canonical
    term. *)
Lemma chain_repeats_term :
  get_hypernym_chain (db := homograph_db) Na = Ok ["unit"; "unit"]
  ∧ ¬ NoDup ["unit"; "unit"].
Proof.
  split; [vm_compute; reflexivity|].
  intros Hnd. apply NoDup_cons in Hnd as [Hnotin _]. apply Hnotin. left.
Qed.

Lemma chain_identifiers_distinct_witness :
  get_hypernym_chain (db := homograph_db) Na = Ok ["unit"; "unit"]
  ∧ names_of (db := homograph_db) (ancestors (db := homograph_db) Na)
      ["unit"; "unit"]
  ∧ NoDup (offset (WordNet := homograph_db)
             <$> ancestors (db := homograph_db) Na).
Proof.
  assert (get_hypernym_chain (db := homograph_db) Na = Ok ["unit"; "unit"])
    as Hrun by (vm_compute; reflexivity).
  split; [exact Hrun|].
  destruct (chain_identifiers_distinct (db := homograph_db) Na _ Hrun)
    as (Hnames & Hnd & _).
  split; [exact Hnames | exact Hnd].
Defined.

(** ** Strings *)

Section string_facts.
Implicit Types (s t u : string) (c : ascii).

Lemma str_app_nil_l s : "" +:+ s = s.
Proof. reflexivity. Qed.

Lemma str_app_cons c s t : String c s +:+ t = String c (s +:+ t).
Proof. reflexivity. Qed.

Lemma str_app_nil_r s : s +:+ "" = s.
Proof. induction s as [|c s IH]; [done|]. by rewrite str_app_cons, IH. Qed.

Lemma str_app_assoc s t u : (s +:+ t) +:+ u = s +:+ t +:+ u.
Proof.
  induction s as [|c s IH]; [done|]. by rewrite !str_app_cons, IH.
Qed.

Lemma str_length_app s t :
  String.length (s +:+ t) = String.length s + String.length t.
Proof.
  induction s as [|c s IH]; [done|]. rewrite str_app_cons. simpl. by rewrite IH.
Qed.

Lemma occurs_app c s t : occurs c (s +:+ t) = occurs c s || occurs c t.
Proof.
  induction s as [|d s IH]; [done|]. rewrite str_app_cons. simpl.
  by case_decide.
Qed.

Lemma string_take_app k s t :
  string_take k (s +:+ t)
  = if decide (String.length s ≤ k)
    then s +:+ string_take (k - String.length s) t
    else string_take k s.
Proof.
  revert k. induction s as [|c s IH]; intros k.
  - rewrite str_app_nil_l. simpl. by rewrite str_app_nil_l, Nat.sub_0_r.
  - rewrite str_app_cons.
    change (String.length (String c s)) with (S (String.length s)).
    destruct k as [|k].
    + by case_decide; [lia|].
    + change (string_take (S k) (String c (s +:+ t)))
        with (String c (string_take k (s +:+ t))).
      rewrite IH. repeat case_decide; try lia; done.
Qed.

Lemma string_take_length k s :
  String.length (string_take k s) = k `min` String.length s.
Proof.
  revert k. induction s as [|c s IH]; intros [|k]; simpl; try done.
  by rewrite IH.
Qed.

Lemma lines_of_line s t :
  occurs NEWLINE s = false → lines_of (s +:+ nl +:+ t) = s :: lines_of t.
Proof.
  induction s as [|c s IH]; intros Hs.
  - rewrite str_app_nil_l. unfold nl. by rewrite str_app_cons.
  - rewrite str_app_cons. simpl in *.
    destruct (decide (NEWLINE = c)) as [|Hne]; [done|].
    rewrite decide_False by done. by rewrite IH.
Qed.

Lemma first_column_field s t :
  occurs TAB s = false → first_column (s +:+ tab +:+ t) = s.
Proof.
  induction s as [|c s IH]; intros Hs.
  - rewrite str_app_nil_l. unfold tab. by rewrite str_app_cons.
  - rewrite str_app_cons. simpl in *.
    destruct (decide (TAB = c)) as [|Hne]; [done|].
    rewrite decide_False by done. by rewrite IH.
Qed.

Lemma after_tab_field s t :
  occurs TAB s = false → after_tab (s +:+ tab +:+ t) = t.
Proof.
  induction s as [|c s IH]; intros Hs.
  - rewrite str_app_nil_l. unfold tab. by rewrite str_app_cons.
  - rewrite str_app_cons. simpl in *.
    destruct (decide (TAB = c)) as [|Hne]; [done|].
    rewrite decide_False by done. by rewrite IH.
Qed.

Lemma strip_prefix_app s t : strip_prefix s (s +:+ t) = Some t.
Proof.
  induction s as [|c s IH]; [by destruct t|].
  rewrite str_app_cons. simpl. by rewrite decide_True.
Qed.

End string_facts.

(** ** Decimal numerals *)

Section decimal_facts.
Implicit Types (s d : string) (x acc : N).

Lemma digit_value_pretty_char x :
  (x < 10)%N → digit_value (pretty_N_char x) = Some x.
Proof.
  intros Hx.
  assert (x = 0 ∨ x = 1 ∨ x = 2 ∨ x = 3 ∨ x = 4 ∨ x = 5 ∨ x = 6
          ∨ x = 7 ∨ x = 8 ∨ x = 9)%N as Hcases by lia.
  repeat (destruct Hcases as [->|Hcases]; [done|]). by subst.
Qed.

Lemma all_digits_app s d :
  all_digits (s +:+ d) = all_digits s && all_digits d.
Proof.
  induction s as [|c s IH]; [done|]. rewrite str_app_cons. simpl.
  by rewrite IH, andb_assoc.
Qed.

Lemma digits_value_app acc s d :
  digits_value acc (s +:+ d)
  = digits_value acc s ≫= λ v, digits_value v d.
Proof.
  revert acc. induction s as [|c s IH]; intros acc; [done|].
  rewrite str_app_cons. simpl. by destruct (digit_value c).
Qed.

Lemma all_digits_occurs c s :
  all_digits s = true → digit_value c = None → occurs c s = false.
Proof.
  intros Hs Hc. induction s as [|c' s IH]; [done|]. simpl in *.
  apply andb_true_iff in Hs as [Hc' Hs].
  case_decide as Heq; [|by apply IH]. subst c'.
  apply bool_decide_eq_true in Hc'. rewrite Hc in Hc'. by destruct Hc'.
Qed.

(** What [pretty_N_go] puts in front of [s]: the digits of [x], none for 0,
    the leading one not zero. *)
Lemma pretty_N_go_digits x s :
  ∃ d, pretty_N_go x s = d +:+ s
       ∧ all_digits d = true
       ∧ (∀ acc, digits_value acc d
                 = Some (acc * 10 ^ N.of_nat (String.length d) + x)%N)
       ∧ (x < 10 ^ N.of_nat (String.length d))%N
       ∧ (x = 0%N ∧ d = ""
          ∨ (10 ^ N.of_nat (String.length d - 1) ≤ x)%N
            ∧ 0 < String.length d).
Proof.
  revert s. induction (N.lt_wf_0 x) as [x _ IH]; intros s.
  destruct (decide (x = 0%N)) as [->|Hx].
  { exists "". rewrite pretty_N_go_0. split; [done|]. split; [done|].
    split; [intros acc; simpl; f_equal; lia|]. split; [done|]. by left. }
  rewrite pretty_N_go_step by lia.
  set (c := pretty_N_char (x `mod` 10)).
  destruct (IH (x `div` 10)%N) with (s := String c s)
    as (d & -> & Hd & Hval & Hlt & Hlow).
  { apply N.div_lt; lia. }
  assert (digit_value c = Some (x `mod` 10)%N) as Hc.
  { apply digit_value_pretty_char, N.mod_lt. lia. }
  pose proof (N.div_mod x 10 ltac:(lia)) as Hdm.
  pose proof (N.mod_lt x 10 ltac:(lia)) as Hmod.
  exists (d +:+ String c "").
  assert (String.length (d +:+ String c "") = S (String.length d)) as Hlen.
  { rewrite str_length_app. simpl. lia. }
  rewrite Hlen.
  replace (N.of_nat (S (String.length d)))
    with (N.succ (N.of_nat (String.length d))) by lia.
  rewrite N.pow_succ_r by lia.
  split; [by rewrite str_app_assoc|].
  split. { rewrite all_digits_app, Hd. simpl. by rewrite Hc. }
  split. { intros acc. rewrite digits_value_app, Hval. simpl. rewrite Hc.
           simpl. f_equal. lia. }
  split; [lia|]. right. split; [|lia].
  replace (S (String.length d) - 1) with (String.length d) by lia.
  destruct Hlow as [[Hzero ->]|[Hlow Hpos]].
  - simpl. lia.
  - replace (N.of_nat (String.length d))
      with (N.succ (N.of_nat (String.length d - 1))) by lia.
    rewrite N.pow_succ_r by lia.
    pose proof (N.Div0.mul_div_le x 10). lia.
Qed.

(** [pretty] on [N]: a non-empty digit string whose value is the number. *)
Lemma pretty_N_digits x :
  all_digits (pretty x) = true
  ∧ digits_value 0 (pretty x) = Some x
  ∧ 0 < String.length (pretty x)
  ∧ ∀ k, 0 < k → (x < 10 ^ N.of_nat k)%N → String.length (pretty x) ≤ k.
Proof.
  unfold pretty, pretty_N. case_decide as Hx.
  { subst x. repeat split; simpl; try done; lia. }
  destruct (pretty_N_go_digits x "") as (d & -> & Hd & Hval & Hlt & Hlow).
  rewrite str_app_nil_r. destruct Hlow as [[? _]|[Hlow Hpos]]; [done|].
  split; [done|]. split; [by rewrite Hval; f_equal; lia|]. split; [done|].
  intros k Hk Hxk.
  destruct (decide (String.length d ≤ k)) as [|Hgt]; [done|]. exfalso.
  assert (10 ^ N.of_nat k ≤ 10 ^ N.of_nat (String.length d - 1))%N.
  { apply N.pow_le_mono_r; lia. }
  lia.
Qed.

Lemma pretty_N_length_ge x k :
  (10 ^ N.of_nat k ≤ x)%N → k < String.length (pretty x).
Proof.
  intros Hx. unfold pretty, pretty_N. case_decide as Hx0.
  { subst x. pose proof (N.pow_nonzero 10 (N.of_nat k)). lia. }
  destruct (pretty_N_go_digits x "") as (d & -> & _ & _ & Hlt & _).
  rewrite str_app_nil_r.
  destruct (decide (k < String.length d)) as [|Hle]; [done|]. exfalso.
  assert (10 ^ N.of_nat (String.length d) ≤ 10 ^ N.of_nat k)%N.
  { apply N.pow_le_mono_r; lia. }
  lia.
Qed.

Lemma zeros_length k : String.length (zeros k) = k.
Proof. unfold zeros. induction k as [|k IH]; simpl; [done|]. by f_equal. Qed.

Lemma zeros_all_digits k : all_digits (zeros k) = true.
Proof. unfold zeros. induction k as [|k IH]; simpl; done. Qed.

Lemma zeros_value k d : digits_value 0 (zeros k +:+ d) = digits_value 0 d.
Proof.
  induction k as [|k IH]; [done|].
  change (zeros (S k)) with (String "0" (zeros k)). by rewrite str_app_cons.
Qed.

Lemma str_digits n :
  all_digits (str n) = true
  ∧ digits_value 0 (str n) = Some (N.of_nat n).
Proof.
  unfold str, pretty, pretty_nat.
  destruct (pretty_N_digits (N.of_nat n)) as (? & ? & _). done.
Qed.

Lemma decimal_value_digits s v :
  all_digits s = true → s ≠ "" → digits_value 0 s = Some v →
  decimal_value s = Some (Z.of_N v).
Proof.
  intros Hs Hne Hv. destruct s as [|c s]; [done|]. unfold decimal_value.
  case_decide as Hc.
  - subst c. simpl in Hs. done.
  - by rewrite Hv.
Qed.

Lemma decimal_value_minus s v :
  s ≠ "" → digits_value 0 s = Some v →
  decimal_value ("-" +:+ s) = Some (- Z.of_N v)%Z.
Proof.
  intros Hne Hv. change ("-" +:+ s) with (String "-" s).
  unfold decimal_value. rewrite decide_True by done.
  destruct s; [done|]. by rewrite Hv.
Qed.

Lemma str_nonempty_length s : 0 < String.length s → s ≠ "".
Proof. destruct s; simpl; [lia | done]. Qed.

(** [f"{n:08d}"] reads back as [n], and has at least 8 characters: exactly
    8, all digits, for [0 ≤ n < 10^8], and more from [10^8] on. *)
Lemma format_08d_spec (n : Z) :
  decimal_value (format_08d n) = Some n
  ∧ occurs TAB (format_08d n) = false
  ∧ occurs NEWLINE (format_08d n) = false
  ∧ 8 ≤ String.length (format_08d n)
  ∧ ((0 ≤ n < 10 ^ 8)%Z →
     String.length (format_08d n) = 8 ∧ all_digits (format_08d n) = true)
  ∧ ((10 ^ 8 ≤ n)%Z → 8 < String.length (format_08d n)).
Proof.
  unfold format_08d.
  destruct (pretty_N_digits (Z.abs_N n)) as (Hd & Hv & Hpos & Hlen).
  set (d := pretty (Z.abs_N n)) in *.
  assert (∀ k, zeros k +:+ d ≠ "") as Hne.
  { intros k. apply str_nonempty_length.
    rewrite str_length_app, zeros_length. lia. }
  assert (∀ k, all_digits (zeros k +:+ d) = true) as Hzd.
  { intros k. by rewrite all_digits_app, zeros_all_digits, Hd. }
  case_decide as Hsign.
  - (* negative: a sign, then the zero-filled digits *)
    split.
    { erewrite decimal_value_minus; [|apply Hne|by rewrite zeros_value].
      f_equal. lia. }
    change ("-" +:+ ?r) with (String "-" r). simpl.
    rewrite !all_digits_occurs by done.
    rewrite str_length_app, zeros_length.
    repeat split; try done; lia.
  - rewrite !str_app_nil_l. simpl String.length. split.
    { erewrite decimal_value_digits; [|apply Hzd|apply Hne|by rewrite zeros_value].
      f_equal. lia. }
    rewrite !all_digits_occurs by done.
    rewrite str_length_app, zeros_length.
    split; [done|]. split; [done|]. split; [lia|]. split.
    + intros [Hlo Hhi]. split; [|done].
      assert (String.length d ≤ 8); [|lia].
      apply Hlen; [lia|]. change (10 ^ N.of_nat 8)%N with 100000000%N. lia.
    + intros Hbig.
      assert (8 < String.length d); [|lia].
      apply pretty_N_length_ge. change (10 ^ N.of_nat 8)%N with 100000000%N.
      lia.
Qed.
End decimal_facts.

(** ** The vocabulary builder *)

Section collect_facts.
Context {Synset : Type} `{Finite Synset} {db : WordNet Synset}.
Implicit Types (synset : Synset) (seen_names : gset string).
Implicit Types (lines : list string) (noun_synsets : list Synset).

Lemma canonical_cons synset l ls :
  lemmas synset = l :: ls → canonical synset = Some (name l).
Proof. unfold canonical. by intros ->. Qed.

Lemma canonical_nil synset : lemmas synset = [] ↔ canonical synset = None.
Proof. unfold canonical. by destruct (lemmas synset). Qed.

(** The lines the loop appends are the lines of the senses it keeps. *)
Lemma collect_lines_kept noun_synsets lines seen_names out :
  collect_lines noun_synsets lines seen_names = Ok out →
  ∃ new, out = lines ++ new
         ∧ Forall2 (λ synset line, entry_line synset = Some line)
             (kept_synsets noun_synsets seen_names) new
         ∧ Forall (λ synset, is_Some (canonical synset)) noun_synsets.
Proof.
  revert lines seen_names.
  induction noun_synsets as [|synset rest IH]; intros lines seen_names; simpl.
  { intros [= <-]. exists []. by rewrite app_nil_r. }
  destruct (lemmas synset) as [|l ls] eqn:Hl; [done|].
  rewrite (canonical_cons _ _ _ Hl).
  case_decide as Hseen.
  { intros (new & -> & Hnew & Hall)%IH. exists new. split; [done|].
    split; [done|]. constructor; [|done].
    rewrite (canonical_cons _ _ _ Hl). by eexists. }
  destruct (get_hypernym_chain synset) as [chain|e|] eqn:Hchain; [|done..].
  simpl. intros (new & -> & Hnew & Hall)%IH.
  eexists (_ :: new). split; [by rewrite <-app_assoc|]. split.
  - constructor; [|done]. unfold entry_line.
    by rewrite (canonical_cons _ _ _ Hl), Hchain.
  - constructor; [|done]. rewrite (canonical_cons _ _ _ Hl). by eexists.
Qed.

Lemma kept_synsets_fresh noun_synsets seen_names :
  NoDup (canonical <$> kept_synsets noun_synsets seen_names)
  ∧ ∀ synset, synset ∈ kept_synsets noun_synsets seen_names →
      ∃ term, canonical synset = Some term ∧ term ∉ seen_names.
Proof.
  revert seen_names.
  induction noun_synsets as [|synset rest IH]; intros seen_names; simpl.
  { split; [constructor | by intros ? ?%elem_of_nil]. }
  destruct (canonical synset) as [term|] eqn:Hterm;
    [|split; [constructor | by intros ? ?%elem_of_nil]].
  case_decide as Hseen; [apply IH|].
  destruct (IH (seen_names ∪ {[term]})) as [Hnd Hfresh]. split.
  - rewrite fmap_cons, Hterm. constructor; [|done].
    intros (s & Hs & Hin)%list_elem_of_fmap.
    destruct (Hfresh s Hin) as (term' & Hterm' & Hnotin).
    rewrite Hterm' in Hs. set_solver.
  - intros s [->|Hin]%elem_of_cons; [by exists term|].
    destruct (Hfresh s Hin) as (term' & Hterm' & Hnotin).
    exists term'. set_solver.
Qed.

(** A sense is kept exactly when it is the first of the enumeration with
    its canonical term. *)
Lemma kept_synsets_first noun_synsets seen_names synset :
  Forall (λ synset, is_Some (canonical synset)) noun_synsets →
  synset ∈ kept_synsets noun_synsets seen_names ↔
  ∃ pre post term,
    noun_synsets = pre ++ synset :: post
    ∧ canonical synset = Some term
    ∧ (term ∉ seen_names)
    ∧ (Some term ∉ canonical <$> pre).
Proof.
  revert seen_names.
  induction noun_synsets as [|s rest IH]; intros seen_names Hall; simpl.
  { split; [by intros ?%elem_of_nil|].
    intros (pre & post & ? & Heq & _). by destruct pre. }
  apply Forall_cons in Hall as [[t Ht] Hall]. rewrite Ht.
  case_decide as Hseen.
  - rewrite (IH _ Hall). split.
    + intros (pre & post & term & -> & Hterm & Hnew & Hpre).
      exists (s :: pre), post, term. repeat split; try done.
      rewrite fmap_cons, Ht. rewrite not_elem_of_cons. split; [|done].
      intros [= ->]. done.
    + intros (pre & post & term & Heq & Hterm & Hnew & Hpre).
      destruct pre as [|s' pre]; simpl in Heq; injection Heq as -> ->.
      { rewrite Ht in Hterm. by injection Hterm as ->. }
      exists pre, post, term. repeat split; try done.
      rewrite fmap_cons, not_elem_of_cons in Hpre. by destruct Hpre.
  - rewrite elem_of_cons, (IH _ Hall). split.
    + intros [->|(pre & post & term & -> & Hterm & Hnew & Hpre)].
      * exists [], rest, t. repeat split; try done. by intros ?%elem_of_nil.
      * exists (s :: pre), post, term. repeat split; try done; [set_solver|].
        rewrite fmap_cons, Ht. rewrite not_elem_of_cons. split; [|done].
        intros [= ->]. set_solver.
    + intros (pre & post & term & Heq & Hterm & Hnew & Hpre).
      destruct pre as [|s' pre]; simpl in Heq; injection Heq as -> ->;
        [by left|]. right.
      exists pre, post, term.
      rewrite fmap_cons, Ht, not_elem_of_cons in Hpre.
      destruct Hpre as [Hne Hpre].
      repeat split; try done.
      assert (term ≠ t) by congruence. set_solver.
Qed.
End collect_facts.

(** ** Writing the file *)

Section io_facts.
Implicit Types (w : world) (f data acc : string) (datas : list string).

Lemma concat_nil_cons data datas :
  String.concat "" (data :: datas) = data +:+ String.concat "" datas.
Proof. destruct datas; simpl; [by rewrite str_app_nil_r | done]. Qed.

Lemma write_lines_all f lines w :
  write_lines f lines w = write_all f ((λ line, line +:+ nl) <$> lines) w.
Proof.
  revert w. induction lines as [|line rest IH]; intros w; simpl; [done|].
  unfold io_bind. destruct (write f (line +:+ nl) w) as [[[]|e|] w']; auto.
Qed.

(** A sequence of writes appends the concatenation of the data, or, when
    the device gives out, the part of it the device accepted. *)
Lemma write_all_spec f datas w acc :
  files w !! f = Some acc →
  write_all f datas w =
    let total := String.concat "" datas in
    match quota w with
    | None =>
        (Ok (), World (<[f := acc +:+ total]> (files w)) (unwritable w)
                  None (stderr w))
    | Some q =>
        if decide (String.length total ≤ q) then
          (Ok (), World (<[f := acc +:+ total]> (files w)) (unwritable w)
                    (Some (q - String.length total)) (stderr w))
        else
          (Raise OSError,
           World (<[f := acc +:+ string_take q total]> (files w))
             (unwritable w) (Some 0) (stderr w))
    end.
Proof.
  revert w acc. induction datas as [|data rest IH]; intros w acc Hacc.
  { destruct w as [fs uw [q|] err]; simpl in *.
    - unfold io_ret. by rewrite str_app_nil_r, Nat.sub_0_r, insert_id.
    - unfold io_ret. by rewrite str_app_nil_r, insert_id. }
  cbv zeta. rewrite concat_nil_cons.
  change (write_all f (data :: rest) w)
    with (io_bind (write f data) (λ _, write_all f rest) w).
  unfold io_bind, write, append_to. rewrite Hacc. simpl.
  destruct w as [fs uw [q|] err]; simpl in *.
  - destruct (decide (String.length data ≤ q)) as [Hfit|Hover].
    + rewrite (IH _ (acc +:+ data)) by (simpl; apply lookup_insert_eq).
      simpl. rewrite !insert_insert_eq, !str_app_assoc, str_length_app.
      rewrite string_take_app, (decide_True _ _ Hfit).
      rewrite <-Nat.sub_add_distr. repeat case_decide; try lia; done.
    + rewrite string_take_app, (decide_False _ _ Hover).
      rewrite str_length_app. by rewrite decide_False by lia.
  - rewrite (IH _ (acc +:+ data)) by (simpl; apply lookup_insert_eq).
    simpl. by rewrite insert_insert_eq, str_app_assoc.
Qed.

Lemma output_text_concat lines :
  output_text lines
  = String.concat ""
      ((header1 +:+ nl) :: (header2 +:+ nl)
         :: (header3 (length lines) +:+ nl)
         :: ((λ line, line +:+ nl) <$> lines)).
Proof. unfold output_text. by rewrite !concat_nil_cons, !str_app_assoc. Qed.

Lemma lines_of_concat lines :
  Forall (λ line, occurs NEWLINE line = false) lines →
  lines_of (String.concat "" ((λ line, line +:+ nl) <$> lines)) = lines.
Proof.
  induction 1 as [|line rest Hline Hrest IH]; [done|].
  rewrite fmap_cons, concat_nil_cons, str_app_assoc, lines_of_line by done.
  by rewrite IH.
Qed.

Lemma header3_no_newline n : occurs NEWLINE (header3 n) = false.
Proof.
  unfold header3. rewrite !occurs_app.
  destruct (str_digits n) as [Hd _].
  by rewrite (all_digits_occurs _ _ Hd).
Qed.

(** The first three lines of an output file are its header. *)
Lemma lines_of_output_header lines :
  lines_of (output_text lines)
  = header1 :: header2 :: header3 (length lines)
      :: lines_of (String.concat "" ((λ line, line +:+ nl) <$> lines)).
Proof.
  unfold output_text.
  rewrite lines_of_line by done. rewrite lines_of_line by done.
  by rewrite lines_of_line by apply header3_no_newline.
Qed.

(** Reading a complete output file back line by line. *)
Lemma lines_of_output_text lines :
  Forall (λ line, occurs NEWLINE line = false) lines →
  lines_of (output_text lines)
  = header1 :: header2 :: header3 (length lines) :: lines.
Proof.
  intros Hlines. unfold output_text.
  rewrite lines_of_line by done. rewrite lines_of_line by done.
  rewrite lines_of_line by apply header3_no_newline.
  by rewrite lines_of_concat.
Qed.

Lemma stated_count_header3 n : stated_count (header3 n) = Some n.
Proof.
  unfold stated_count, header3. rewrite strip_prefix_app.
  destruct (str_digits n) as [Hd Hv].
  assert (∀ d, all_digits d = true →
            span_digits (d +:+ header3_suffix) = (d, header3_suffix)) as Hspan.
  { induction d as [|c d IH]; [done|]. rewrite str_app_cons. simpl.
    intros [Hc Hd']%andb_true_iff. apply bool_decide_eq_true in Hc as [v ->].
    by rewrite IH. }
  rewrite Hspan by done. rewrite Hv. simpl.
  assert (str n ≠ "") as Hne.
  { unfold str, pretty, pretty_nat.
    destruct (pretty_N_digits (N.of_nat n)) as (_ & _ & Hpos & _).
    by apply str_nonempty_length. }
  rewrite decide_True by done. f_equal. lia.
Qed.
End io_facts.

(** ** The data lines *)

Section line_facts.
Context {Synset : Type} `{Finite Synset} {db : WordNet Synset}.
Implicit Types (synset : Synset) (line term : string).

Lemma occurs_join c sep (l : list string) :
  occurs c sep = false → Forall (λ t, occurs c t = false) l →
  occurs c (join sep l) = false.
Proof.
  intros Hsep. unfold join. induction 1 as [|t l Ht Hl IH]; [done|].
  destruct l as [|t' l]; simpl in *; [done|].
  by rewrite !occurs_app, Ht, Hsep, IH.
Qed.

Lemma occurs_chain_str c chain :
  c ≠ "|"%char → Forall (λ t, occurs c t = false) chain →
  occurs c (chain_str chain) = false.
Proof.
  intros Hc Hchain. unfold chain_str. destruct chain; [done|].
  apply occurs_join; [|done]. simpl. by rewrite decide_False.
Qed.

Lemma chain_terms_clean synset chain :
  well_formed_terms → get_hypernym_chain synset = Ok chain →
  Forall (λ t, occurs NEWLINE t = false) chain.
Proof.
  intros Hwf Hchain.
  pose proof (get_hypernym_chain_ancestors synset) as Hanc.
  rewrite Hchain in Hanc.
  eapply Forall2_Forall_r; [exact Hanc|]. apply Forall_forall.
  intros p _ t Ht. by destruct (Hwf p t Ht).
Qed.

Lemma entry_line_term synset line :
  entry_line synset = Some line → ∃ term, canonical synset = Some term.
Proof.
  unfold entry_line. destruct (canonical synset) as [term|]; [|done].
  by exists term.
Qed.

Lemma entry_line_columns synset line term :
  entry_line synset = Some line → canonical synset = Some term →
  occurs TAB term = false →
  first_column line = term ∧ second_column line = format_08d (offset synset).
Proof.
  unfold entry_line. intros Hline Hterm Htab. rewrite Hterm in Hline.
  destruct (get_hypernym_chain synset) as [chain|?|]; [|done..].
  injection Hline as <-. unfold render_line, second_column.
  rewrite first_column_field, after_tab_field by done.
  split; [done|]. apply first_column_field.
  by destruct (format_08d_spec (offset synset)) as (_ & ? & _).
Qed.

Lemma entry_line_no_newline synset line :
  well_formed_terms → entry_line synset = Some line →
  occurs NEWLINE line = false.
Proof.
  unfold entry_line. intros Hwf Hline.
  destruct (canonical synset) as [term|] eqn:Hterm; [|done].
  destruct (get_hypernym_chain synset) as [chain|?|] eqn:Hchain; [|done..].
  injection Hline as <-. unfold render_line.
  destruct (Hwf _ _ Hterm) as [_ Hnl].
  destruct (format_08d_spec (offset synset)) as (_ & _ & Hid & _).
  rewrite !occurs_app, Hnl, Hid. simpl.
  apply occurs_chain_str; [done|]. by eapply chain_terms_clean.
Qed.

(** [list.sort()] is determined by its specification: the order on strings
    is total and antisymmetric, so the sorted rearrangement of a list is
    unique, whatever the sorting algorithm. *)
Lemma sort_unique (lines sorted : list string) :
  sorted ≡ₚ lines → Sorted String.le sorted → sorted = sort lines.
Proof.
  intros Hperm Hsorted. apply (Sorted_unique String.le); [done| |].
  - apply Sorted_merge_sort. apply _.
  - unfold sort. by rewrite merge_sort_Permutation.
Qed.
End line_facts.

(** ** The whole run *)

Section main_facts.
Context {Synset : Type} `{Finite Synset} {db : WordNet Synset}.
Implicit Types (argv : list string) (w : world).

Lemma io_bind_eprint {A} line (k : () → io A) w :
  io_bind (eprint line) k w
  = k () (World (files w) (unwritable w) (quota w) (stderr w ++ [line])).
Proof. reflexivity. Qed.

Lemma io_bind_lift {A B} (r : result A) (k : A → io B) w :
  io_bind (io_lift r) k w
  = match r with
    | Ok a => k a w
    | Raise e => (Raise e, w)
    | OutOfFuel => (OutOfFuel, w)
    end.
Proof. by destruct r. Qed.

Lemma io_bind_open {A} path (k : string → io A) w :
  io_bind (open_w path) k w
  = if decide (path ∈ unwritable w) then (Raise OSError, w)
    else k path (World (<[path := ""]> (files w)) (unwritable w) (quota w)
                   (stderr w)).
Proof. unfold io_bind, open_w. by case_decide. Qed.

Lemma write_block {A} f a b c ls (k : () → io A) w :
  io_bind (write f a) (λ _, io_bind (write f b) (λ _,
    io_bind (write f c) (λ _, io_bind (write_lines f ls) k))) w
  = io_bind (write_all f (a :: b :: c :: ((λ l, l +:+ nl) <$> ls))) k w.
Proof.
  cbn [write_all]. unfold io_bind.
  destruct (write f a w) as [[[]|?|] wa]; [|done..].
  destruct (write f b wa) as [[[]|?|] wb]; [|done..].
  destruct (write f c wb) as [[[]|?|] wc]; [|done..].
  by rewrite write_lines_all.
Qed.

(** What a run does, by cases on what can go wrong. *)
Lemma main_outcome argv w :
  main argv w =
    let path := output_path_of argv in
    let found := "Found " +:+ str (length all_synsets)
                   +:+ " noun synsets in WordNet" in
    let w1 := World (files w) (unwritable w) (quota w) (stderr w ++ [found]) in
    match collect_lines all_synsets [] ∅ with
    | Ok lines =>
        let text := output_text (sort lines) in
        let wrote := "Wrote " +:+ str (length (sort lines))
                       +:+ " terms to " +:+ path in
        if decide (path ∈ unwritable w) then (Raise OSError, w1)
        else
          match quota w with
          | None =>
              (Ok (), World (<[path := text]> (files w)) (unwritable w) None
                        (stderr w ++ [found; wrote]))
          | Some q =>
              if decide (String.length text ≤ q) then
                (Ok (), World (<[path := text]> (files w)) (unwritable w)
                          (Some (q - String.length text))
                          (stderr w ++ [found; wrote]))
              else
                (Raise OSError,
                 World (<[path := string_take q text]> (files w))
                   (unwritable w) (Some 0) (stderr w ++ [found]))
          end
    | Raise e => (Raise e, w1)
    | OutOfFuel => (OutOfFuel, w1)
    end.
Proof.
  cbv zeta. unfold main.
  rewrite io_bind_eprint, io_bind_lift.
  destruct (collect_lines all_synsets [] ∅) as [lines|e|]; [|done..].
  rewrite io_bind_open. cbn [files unwritable quota stderr].
  case_decide as Hopen; [done|].
  rewrite write_block.
  unfold io_bind.
  erewrite write_all_spec by (cbn [files]; apply lookup_insert_eq).
  rewrite <-output_text_concat. cbv zeta.
  cbn [files unwritable quota stderr].
  destruct (quota w) as [q|]; [case_decide|]; unfold eprint;
    cbn [files unwritable quota stderr];
    by rewrite !str_app_nil_l, !insert_insert_eq, <-?app_assoc.
Qed.

Lemma main_ok argv w w' :
  main argv w = (Ok (), w') →
  ∃ lines, collect_lines all_synsets [] ∅ = Ok lines
           ∧ files w' !! output_path_of argv = Some (output_text (sort lines)).
Proof.
  rewrite main_outcome. cbv zeta.
  destruct (collect_lines all_synsets [] ∅) as [lines|e|]; [|done..].
  intros Hrun. exists lines. split; [done|].
  case_decide; [done|].
  destruct (quota w) as [q|]; [case_decide; [|done]|];
    injection Hrun as <-; simpl; apply lookup_insert_eq.
Qed.

Lemma collect_lines_no_newline lines :
  well_formed_terms → collect_lines all_synsets [] ∅ = Ok lines →
  Forall (λ line, occurs NEWLINE line = false) lines.
Proof.
  intros Hwf (new & -> & Hnew & _)%collect_lines_kept. simpl.
  eapply Forall2_Forall_r; [exact Hnew|]. apply Forall_forall.
  intros synset _ line Hline. by eapply entry_line_no_newline.
Qed.

(** The data lines read back from the file of a successful run are the
    sorted lines of the builder. *)
Lemma data_lines_output lines :
  well_formed_terms → collect_lines all_synsets [] ∅ = Ok lines →
  lines_of (output_text (sort lines))
  = header1 :: header2 :: header3 (length (sort lines)) :: sort lines
  ∧ data_lines (output_text (sort lines)) = sort lines.
Proof.
  intros Hwf Hlines.
  assert (lines_of (output_text (sort lines))
          = header1 :: header2 :: header3 (length (sort lines)) :: sort lines)
    as Heq.
  { apply lines_of_output_text. unfold sort.
    rewrite merge_sort_Permutation. by apply collect_lines_no_newline. }
  split; [done|]. unfold data_lines. by rewrite Heq.
Qed.
End main_facts.

(** ** The output file *)

Section output_theorems.
Context {Synset : Type} `{Finite Synset} {db : WordNet Synset}.
Implicit Types (argv : list string) (w : world) (synset : Synset).

Lemma first_columns_nodup (kept : list Synset) (lines : list string) :
  well_formed_terms →
  Forall2 (λ synset line, entry_line synset = Some line) kept lines →
  (∀ synset, synset ∈ kept → is_Some (canonical synset)) →
  canonical <$> kept = Some <$> (first_column <$> lines).
Proof.
  intros Hwf Hlines. induction Hlines as [|s line kept lines Hline _ IH];
    intros Hcan; [done|].
  rewrite !fmap_cons. f_equal.
  - destruct (Hcan s) as [term Hterm]; [left|]. rewrite Hterm. f_equal.
    destruct (Hwf _ _ Hterm) as [Htab _].
    by destruct (entry_line_columns _ _ _ Hline Hterm Htab) as [-> _].
  - apply IH. intros s' Hs'. apply Hcan. by right.
Qed.

(** C3: the data lines written are the lines of the kept senses, one
    each; the kept senses have pairwise different canonical terms, and a
    sense is kept exactly when no sense before it in the enumeration has its
    canonical term (a later sense with the same term produces no line).
    Over a controlled vocabulary the data lines of the file are the lines
    written, the term field (first tab-delimited column) of a line is the
    canonical term of its sense, and no two data lines have the same term
    field. *)
Theorem first_sense_wins argv w w' :
  main argv w = (Ok (), w') →
  ∃ written kept lines,
    files w' !! output_path_of argv = Some (output_text written)
    ∧ written ≡ₚ lines
    ∧ Forall2 (λ synset line, entry_line synset = Some line) kept lines
    ∧ NoDup (canonical <$> kept)
    ∧ (∀ synset, synset ∈ kept ↔
         ∃ pre post term,
           all_synsets = pre ++ synset :: post
           ∧ canonical synset = Some term
           ∧ (Some term ∉ canonical <$> pre))
    ∧ (well_formed_terms →
       data_lines (output_text written) = written
       ∧ Forall2 (λ synset line, canonical synset = Some (first_column line))
           kept lines
       ∧ NoDup (first_column <$> data_lines (output_text written))).
Proof.
  intros (lines & Hlines & Hfile)%main_ok.
  destruct (collect_lines_kept _ _ _ _ Hlines) as (new & Heq & Hnew & Hall).
  simpl in Heq. subst new.
  destruct (kept_synsets_fresh all_synsets ∅) as [Hnd Hfresh].
  exists (sort lines), (kept_synsets all_synsets ∅), lines.
  split; [done|]. split; [apply merge_sort_Permutation|].
  split; [done|]. split; [done|]. split.
  { intros s. rewrite (kept_synsets_first _ _ _ Hall). split.
    - intros (pre & post & term & ? & ? & _ & ?). by exists pre, post, term.
    - intros (pre & post & term & ? & ? & ?). exists pre, post, term.
      repeat split; try done; set_solver. }
  intros Hwf.
  destruct (data_lines_output lines Hwf Hlines) as [_ ->].
  assert (canonical <$> kept_synsets all_synsets ∅
          = Some <$> (first_column <$> lines)) as Hcols.
  { apply first_columns_nodup; [done..|].
    intros s (term & -> & _)%Hfresh. by eexists. }
  split; [done|]. split.
  - eapply Forall2_impl; [exact Hnew|]. intros s line Hline. simpl in Hline.
    destruct (entry_line_term s line Hline) as (term & Hterm).
    destruct (Hwf _ _ Hterm) as [Htab _].
    by destruct (entry_line_columns _ _ _ Hline Hterm Htab) as [-> _].
  - unfold sort. rewrite merge_sort_Permutation.
    rewrite Hcols in Hnd. by apply NoDup_fmap_1 in Hnd.
Qed.

(** C5: the data lines written are the lines the builder emitted,
    rearranged so that, compared as strings, they are non-decreasing from
    first to last (every line is at most every later one).  Over a
    controlled vocabulary they are the data lines of the file. *)
Theorem data_lines_sorted argv w w' :
  main argv w = (Ok (), w') →
  ∃ written lines,
    files w' !! output_path_of argv = Some (output_text written)
    ∧ collect_lines all_synsets [] ∅ = Ok lines
    ∧ written ≡ₚ lines
    ∧ Sorted String.le written
    ∧ StronglySorted String.le written
    ∧ (well_formed_terms → data_lines (output_text written) = written).
Proof.
  intros (lines & Hlines & Hfile)%main_ok.
  exists (sort lines), lines. split; [done|]. split; [done|].
  split; [apply merge_sort_Permutation|].
  split; [apply Sorted_merge_sort, _|].
  split; [apply StronglySorted_merge_sort; apply _|].
  intros Hwf. by destruct (data_lines_output lines Hwf Hlines).
Qed.

(** C6: the third line of the output file states the number of data lines
    written after the header; over a controlled vocabulary these are the
    data lines of the file. *)
Theorem header_count argv w w' :
  main argv w = (Ok (), w') →
  ∃ written line3,
    files w' !! output_path_of argv = Some (output_text written)
    ∧ lines_of (output_text written) !! 2 = Some line3
    ∧ stated_count line3 = Some (length written)
    ∧ (well_formed_terms →
       data_lines (output_text written) = written
       ∧ stated_count line3 = Some (length (data_lines (output_text written)))).
Proof.
  intros (lines & Hlines & Hfile)%main_ok.
  exists (sort lines), (header3 (length (sort lines))).
  split; [done|]. rewrite lines_of_output_header.
  split; [done|]. split; [apply stated_count_header3|].
  intros Hwf. destruct (data_lines_output lines Hwf Hlines) as [_ ->].
  split; [done|]. apply stated_count_header3.
Qed.

(** C8, as the code has it: the sense-id field of the line of a sense is
    [f"{offset:08d}"].  It reads back as the offset and has at least 8
    characters; for an offset from 0 to 99999999 it has exactly 8
    characters, all decimal digits. *)
Theorem sense_id_field synset line :
  entry_line synset = Some line →
  (∀ term, canonical synset = Some term → occurs TAB term = false) →
  second_column line = format_08d (offset synset)
  ∧ decimal_value (second_column line) = Some (offset synset)
  ∧ 8 ≤ String.length (second_column line)
  ∧ ((0 ≤ offset synset < 10 ^ 8)%Z →
     String.length (second_column line) = 8
     ∧ all_digits (second_column line) = true).
Proof.
  intros Hline Htab.
  assert (second_column line = format_08d (offset synset)) as ->.
  { unfold entry_line in Hline.
    destruct (canonical synset) as [term|] eqn:Hterm; [|done].
    assert (entry_line synset = Some line) as Hline'.
    { unfold entry_line. by rewrite Hterm. }
    by destruct (entry_line_columns _ _ _ Hline' Hterm (Htab _ eq_refl)). }
  destruct (format_08d_spec (offset synset)) as (? & _ & _ & ? & ? & _).
  done.
Qed.
End output_theorems.

(** ** Failures *)

Section failure_theorems.
Context {Synset : Type} `{Finite Synset} {db : WordNet Synset}.
Implicit Types (argv : list string) (w : world) (synset : Synset).
Implicit Types (seen_names : gset string).

Lemma collect_lines_ok noun_synsets lines seen_names :
  Forall (λ synset, lemmas synset ≠ []
                    ∧ ∀ p, p ∈ ancestors synset → lemmas p ≠ [])
    noun_synsets →
  ∃ out, collect_lines noun_synsets lines seen_names = Ok out.
Proof.
  intros Hall. revert lines seen_names.
  induction Hall as [|synset rest [Hlem Hanc] _ IH]; intros lines seen_names;
    simpl; [by eexists|].
  destruct (lemmas synset) as [|l ls]; [done|].
  case_decide; [apply IH|].
  pose proof (get_hypernym_chain_ancestors synset) as Hchain.
  destruct (get_hypernym_chain synset) as [chain|e|]; simpl.
  - apply IH.
  - destruct Hchain as (_ & p & Hp & Hnil). by destruct (Hanc p Hp).
  - done.
Qed.

Lemma collect_lines_raise_index noun_synsets lines seen_names e :
  collect_lines noun_synsets lines seen_names = Raise e → e = IndexError.
Proof.
  revert lines seen_names.
  induction noun_synsets as [|s rest IH]; intros lines seen_names; simpl;
    [done|].
  destruct (lemmas s) as [|l ls]; [by intros [= <-]|].
  case_decide; [apply IH|].
  pose proof (get_hypernym_chain_ancestors s) as Hchain.
  destruct (get_hypernym_chain s) as [chain|e'|]; simpl; [apply IH| |done].
  destruct Hchain as [-> _]. by intros [= <-].
Qed.

Lemma collect_lines_raises pre synset post lines seen_names :
  lemmas synset = []
  ∨ (∃ term, canonical synset = Some term
             ∧ (term ∉ seen_names) ∧ (Some term ∉ canonical <$> pre))
    ∧ (∃ p, p ∈ ancestors synset ∧ lemmas p = []) →
  collect_lines (pre ++ synset :: post) lines seen_names = Raise IndexError.
Proof.
  revert lines seen_names.
  induction pre as [|s pre IH]; intros lines seen_names Hbad; simpl.
  - destruct Hbad as [->|[(term & Hterm & Hnew & _) (p & Hp & Hnil)]];
      [done|].
    destruct (lemmas synset) as [|l ls] eqn:Hl; [done|].
    rewrite (canonical_cons _ _ _ Hl) in Hterm. injection Hterm as ->.
    rewrite decide_False by done.
    unfold get_hypernym_chain. by rewrite (loop_raises _ _ _ _ p).
  - destruct (lemmas s) as [|l ls] eqn:Hl; [done|].
    assert (∀ seen',
              seen' = seen_names ∨ seen' = seen_names ∪ {[name l]} →
              collect_lines (pre ++ synset :: post) lines seen'
              = Raise IndexError
              ∧ ∀ lines', collect_lines (pre ++ synset :: post) lines' seen'
                          = Raise IndexError) as Hnext.
    { intros seen' Hseen'.
      assert (lemmas synset = []
              ∨ (∃ term, canonical synset = Some term
                   ∧ (term ∉ seen') ∧ (Some term ∉ canonical <$> pre))
                ∧ (∃ p, p ∈ ancestors synset ∧ lemmas p = [])) as Hbad'.
      { destruct Hbad as [?|[(term & Hterm & Hnew & Hpre) Hanc]]; [by left|].
        right. split; [|done]. exists term.
        rewrite fmap_cons, (canonical_cons _ _ _ Hl), not_elem_of_cons in Hpre.
        destruct Hpre as [Hne Hpre]. repeat split; try done.
        assert (term ≠ name l) by congruence.
        destruct Hseen' as [->| ->]; set_solver. }
      split; [|intros lines']; by apply IH. }
    case_decide as Hseen; [by apply Hnext; left|].
    pose proof (get_hypernym_chain_ancestors s) as Hchain.
    destruct (get_hypernym_chain s) as [chain|e|]; simpl.
    + by apply Hnext; right.
    + by destruct Hchain as [-> _].
    + done.
Qed.

Lemma collect_lines_terminates noun_synsets lines seen_names :
  collect_lines noun_synsets lines seen_names ≠ OutOfFuel.
Proof.
  revert lines seen_names.
  induction noun_synsets as [|s rest IH]; intros lines seen_names; simpl;
    [done|].
  destruct (lemmas s) as [|l ls]; [done|].
  case_decide; [apply IH|].
  pose proof (get_hypernym_chain_ancestors s) as Hchain.
  destruct (get_hypernym_chain s) as [chain|e'|]; simpl; [apply IH|done..].
Qed.

(** The run always ends: with the file written, or with an exception. *)
Lemma main_terminates argv w : (main argv w).1 ≠ OutOfFuel.
Proof.
  rewrite main_outcome. cbv zeta.
  pose proof (collect_lines_terminates all_synsets [] ∅) as Hcollect.
  destruct (collect_lines all_synsets [] ∅) as [lines|e|]; [|done..].
  case_decide; [done|]. destruct (quota w); [case_decide|]; done.
Qed.

(** The run succeeds when every synset has a lemma, the output path can be
    opened and the device takes the whole output. *)
Lemma main_succeeds argv w :
  (∀ synset, lemmas synset ≠ []) →
  output_path_of argv ∉ unwritable w → quota w = None →
  ∃ w', main argv w = (Ok (), w').
Proof.
  intros Hlemmas Hopen Hquota.
  destruct (collect_lines_ok all_synsets [] ∅) as [lines Hlines].
  { apply Forall_forall. intros s _. split; [done|]. intros p _. apply Hlemmas. }
  rewrite main_outcome. cbv zeta. rewrite Hlines, Hquota.
  rewrite decide_False by done. by eexists.
Qed.

(** C10: the run relies on first lemmas.  When every noun sense and every
    synset its walk moves to has a lemma, no first-lemma lookup fails: the
    builder returns its lines and the run does not raise [IndexError].  When
    the enumeration has a sense without lemma, or a sense that is not
    skipped whose walk moves to a synset without lemma, the run aborts with
    [IndexError] (nothing is skipped), before the output file is touched. *)
Theorem first_lemma_required argv w :
  ((∀ synset, synset ∈ all_synsets →
      lemmas synset ≠ [] ∧ ∀ p, p ∈ ancestors synset → lemmas p ≠ []) →
   (∃ lines, collect_lines all_synsets [] ∅ = Ok lines)
   ∧ (main argv w).1 ≠ Raise IndexError)
  ∧ (∀ pre synset post,
       all_synsets = pre ++ synset :: post →
       lemmas synset = []
       ∨ (canonical synset ∉ canonical <$> pre)
         ∧ (∃ p, p ∈ ancestors synset ∧ lemmas p = []) →
       (main argv w).1 = Raise IndexError
       ∧ files (main argv w).2 = files w).
Proof.
  split.
  - intros Hall.
    destruct (collect_lines_ok all_synsets [] ∅) as [lines Hlines].
    { apply Forall_forall. intros s Hs. by apply Hall. }
    split; [by exists lines|].
    rewrite main_outcome. cbv zeta. rewrite Hlines.
    case_decide; [done|].
    destruct (quota w); [case_decide|]; done.
  - intros pre synset post Heq Hbad.
    assert (collect_lines all_synsets [] ∅ = Raise IndexError) as Hraise.
    { rewrite Heq. apply collect_lines_raises.
      destruct Hbad as [?|[Hpre Hanc]]; [by left|].
      destruct (canonical synset) as [term|] eqn:Hterm.
      - right. split; [|done]. exists term. repeat split; try done;
          set_solver.
      - left. by apply canonical_nil. }
    rewrite main_outcome. cbv zeta. by rewrite Hraise.
Qed.

(** C2, as the code has it.  A run that fails before the output path is
    opened, or on opening it, leaves every file as it was.  [open(path, "w")]
    empties the file, so a run that fails in a write leaves in the file the
    part of the complete output the device accepted, a proper prefix of it,
    in place of the previous contents; the other files are as they were. *)
Theorem failed_run_file argv w e w' :
  main argv w = (Raise e, w') →
  (e = IndexError ∨ output_path_of argv ∈ unwritable w) ∧ files w' = files w
  ∨ e = OSError
    ∧ (output_path_of argv ∉ unwritable w)
    ∧ ∃ lines q,
        collect_lines all_synsets [] ∅ = Ok lines
        ∧ quota w = Some q
        ∧ q < String.length (output_text (sort lines))
        ∧ files w'
          = <[output_path_of argv := string_take q (output_text (sort lines))]>
              (files w).
Proof.
  rewrite main_outcome. cbv zeta.
  destruct (collect_lines all_synsets [] ∅) as [lines|e'|] eqn:Hlines.
  - case_decide as Hopen.
    { intros [= <- <-]. left. split; [by right | done]. }
    destruct (quota w) as [q|] eqn:Hq; [|done].
    case_decide as Hfit; [done|].
    intros [= <- <-]. right. split; [done|]. split; [done|].
    exists lines, q. repeat split; try done. lia.
  - intros [= <- <-]. left. split; [|done]. left.
    by eapply collect_lines_raise_index.
  - done.
Qed.
End failure_theorems.

(** ** Determinism *)

Section determinism.
Context {S1 S2 : Type} `{Finite S1} `{Finite S2}.
Context (db1 : WordNet S1) (db2 : WordNet S2) (R : S1 → S2 → Prop).
Hypothesis Hsame : same_snapshot db1 db2 R.

Lemma loop_same_snapshot fuel chain x y seen :
  R x y →
  get_hypernym_chain_loop (db := db1) fuel chain x seen
  = get_hypernym_chain_loop (db := db2) fuel chain y seen.
Proof.
  destruct Hsame as [Hrel _].
  revert chain x y seen.
  induction fuel as [|fuel IH]; intros chain x y seen Hxy; simpl; [done|].
  destruct (Hrel x y Hxy) as (_ & _ & Hhyp).
  destruct Hhyp as [|p q ps qs Hpq _]; [done|].
  destruct (Hrel p q Hpq) as (-> & -> & _).
  case_decide; [done|].
  destruct (lemmas q) as [|l ls]; [done|]. by apply IH.
Qed.

Lemma chain_same_snapshot x y :
  R x y →
  get_hypernym_chain (db := db1) x = get_hypernym_chain (db := db2) y.
Proof.
  intros Hxy. unfold get_hypernym_chain.
  set (fuel := S (card S1) `max` S (card S2)).
  rewrite <-(loop_fuel_mono (db := db1) (S (card S1)) fuel);
    [|apply loop_fuel_enough, card_fuel_enough | lia].
  rewrite <-(loop_fuel_mono (db := db2) (S (card S2)) fuel);
    [|apply loop_fuel_enough, card_fuel_enough | lia].
  by apply loop_same_snapshot.
Qed.

Lemma collect_same_snapshot l1 l2 lines seen_names :
  Forall2 R l1 l2 →
  collect_lines (db := db1) l1 lines seen_names
  = collect_lines (db := db2) l2 lines seen_names.
Proof.
  intros Hl. revert lines seen_names.
  induction Hl as [|x y l1 l2 Hxy _ IH]; intros lines seen_names; simpl;
    [done|].
  destruct Hsame as [Hrel _].
  destruct (Hrel x y Hxy) as (-> & -> & _).
  destruct (lemmas y) as [|l ls]; [done|].
  case_decide; [apply IH|].
  rewrite (chain_same_snapshot x y Hxy).
  destruct (get_hypernym_chain y); simpl; [apply IH | done..].
Qed.

End determinism.

(** ** The script on the small databases *)

Example format_08d_examples :
  format_08d 2099712 = "02099712"
  ∧ format_08d 0 = "00000000"
  ∧ format_08d 99999999 = "99999999"
  ∧ format_08d 100000000 = "100000000"
  ∧ format_08d (-1) = "-0000001".
Proof. repeat split; vm_compute; reflexivity. Qed.

(** The first scenario of the specification: three lines, sorted by term,
    under a header that counts 3. *)
Example dog_output :
  main (db := dog_db) out_argv empty_world
  = (Ok (),
     World {[ "out.txt" :=
                header1 +:+ nl +:+ header2 +:+ nl
                +:+ "# Generated from WordNet 3.0 — 3 terms" +:+ nl
                +:+ "canine" +:+ tab +:+ "00000002" +:+ tab +:+ "mammal" +:+ nl
                +:+ "dog" +:+ tab +:+ "00000001" +:+ tab +:+ "canine|mammal"
                +:+ nl
                +:+ "mammal" +:+ tab +:+ "00000003" +:+ tab +:+ nl ]}
       ∅ None
       ["Found 3 noun synsets in WordNet"; "Wrote 3 terms to out.txt"]).
Proof. vm_compute. reflexivity. Qed.

(** The second scenario: a cyclic chain stops at the repeated ancestor. *)
Example cycle_chain :
  get_hypernym_chain (db := cycle_db) Na = Ok ["hen"; "egg"]
  ∧ get_hypernym_chain (db := cycle_db) Nc = Ok ["self"].
Proof. split; vm_compute; reflexivity. Qed.

(** The third scenario: of two senses with one canonical term, the first
    has a line. *)
Example bank_output :
  collect_lines (db := bank_db) (all_synsets (WordNet := bank_db)) [] ∅
  = Ok ["bank" +:+ tab +:+ "00009000" +:+ tab;
        "slope" +:+ tab +:+ "00007000" +:+ tab].
Proof. vm_compute. reflexivity. Qed.

Lemma node_db_well_formed off names hyp all :
  (∀ x, match names x with
        | [] => True
        | term :: _ => occurs TAB term = false ∧ occurs NEWLINE term = false
        end) →
  well_formed_terms (db := node_db off names hyp all).
Proof.
  intros Hnames x term. specialize (Hnames x).
  unfold canonical. simpl. destruct (names x); [done|].
  by intros [= <-].
Qed.

Lemma dog_db_well_formed : well_formed_terms (db := dog_db).
Proof. apply node_db_well_formed. by intros []. Qed.

Lemma bank_db_well_formed : well_formed_terms (db := bank_db).
Proof. apply node_db_well_formed. by intros []. Qed.

Lemma dog_run_ok :
  main (db := dog_db) out_argv empty_world
  = (Ok (), (main (db := dog_db) out_argv empty_world).2).
Proof. vm_compute. reflexivity. Qed.

Lemma bank_run_ok :
  main (db := bank_db) out_argv empty_world
  = (Ok (), (main (db := bank_db) out_argv empty_world).2).
Proof. vm_compute. reflexivity. Qed.

(** C2, claimed of the code, fails: the device gives out after 10 bytes,
    the run raises, and the file that held the previous vocabulary holds the
    first 10 bytes of the new one. *)
Lemma failed_write_truncates :
  (main (db := dog_db) out_argv full_disk_world).1 = Raise OSError
  ∧ ("out.txt" ∉ unwritable full_disk_world)
  ∧ files full_disk_world !! "out.txt" = Some "previous vocabulary"
  ∧ files (main (db := dog_db) out_argv full_disk_world).2 !! "out.txt"
    = Some "# WordNet "
  ∧ "# WordNet " ≠ "previous vocabulary"
  ∧ collect_lines (db := dog_db) (all_synsets (WordNet := dog_db)) [] ∅
    = Ok ["dog" +:+ tab +:+ "00000001" +:+ tab +:+ "canine|mammal";
          "canine" +:+ tab +:+ "00000002" +:+ tab +:+ "mammal";
          "mammal" +:+ tab +:+ "00000003" +:+ tab]
  ∧ "# WordNet "
    ≠ output_text
        (sort ["dog" +:+ tab +:+ "00000001" +:+ tab +:+ "canine|mammal";
               "canine" +:+ tab +:+ "00000002" +:+ tab +:+ "mammal";
               "mammal" +:+ tab +:+ "00000003" +:+ tab]).
Proof.
  split; [vm_compute; reflexivity|].
  split; [set_solver|].
  split; [vm_compute; reflexivity|].
  split; [vm_compute; reflexivity|].
  split; [done|].
  split; [vm_compute; reflexivity|].
  vm_compute. discriminate.
Qed.

Lemma failed_run_file_witness :
  main (db := dog_db) out_argv full_disk_world
  = (Raise OSError, (main (db := dog_db) out_argv full_disk_world).2)
  ∧ ((OSError = IndexError
      ∨ output_path_of out_argv ∈ unwritable full_disk_world)
     ∧ files (main (db := dog_db) out_argv full_disk_world).2
       = files full_disk_world
     ∨ OSError = OSError
       ∧ (output_path_of out_argv ∉ unwritable full_disk_world)
       ∧ ∃ lines q,
           collect_lines (db := dog_db) (all_synsets (WordNet := dog_db)) [] ∅
           = Ok lines
           ∧ quota full_disk_world = Some q
           ∧ q < String.length (output_text (sort lines))
           ∧ files (main (db := dog_db) out_argv full_disk_world).2
             = <[output_path_of out_argv
                 := string_take q (output_text (sort lines))]>
                 (files full_disk_world)).
Proof.
  assert (main (db := dog_db) out_argv full_disk_world
          = (Raise OSError, (main (db := dog_db) out_argv full_disk_world).2))
    as Hrun by (vm_compute; reflexivity).
  split; [exact Hrun|].
  exact (failed_run_file (db := dog_db) out_argv full_disk_world OSError _ Hrun).
Defined.

Lemma first_sense_wins_witness :
  main (db := bank_db) out_argv empty_world
  = (Ok (), (main (db := bank_db) out_argv empty_world).2)
  ∧ ∃ written kept lines,
      files (main (db := bank_db) out_argv empty_world).2
        !! output_path_of out_argv = Some (output_text written)
      ∧ written ≡ₚ lines
      ∧ Forall2 (λ synset line, entry_line (db := bank_db) synset = Some line)
          kept lines
      ∧ NoDup (canonical (db := bank_db) <$> kept)
      ∧ (∀ synset, synset ∈ kept ↔
           ∃ pre post term,
             all_synsets (WordNet := bank_db) = pre ++ synset :: post
             ∧ canonical (db := bank_db) synset = Some term
             ∧ (Some term ∉ canonical (db := bank_db) <$> pre))
      ∧ (well_formed_terms (db := bank_db) →
         data_lines (output_text written) = written
         ∧ Forall2 (λ synset line,
                      canonical (db := bank_db) synset
                      = Some (first_column line)) kept lines
         ∧ NoDup (first_column <$> data_lines (output_text written))).
Proof.
  split; [exact bank_run_ok|].
  exact (first_sense_wins (db := bank_db) out_argv empty_world _ bank_run_ok).
Defined.

Lemma data_lines_sorted_witness :
  main (db := dog_db) out_argv empty_world
  = (Ok (), (main (db := dog_db) out_argv empty_world).2)
  ∧ ∃ written lines,
      files (main (db := dog_db) out_argv empty_world).2
        !! output_path_of out_argv = Some (output_text written)
      ∧ collect_lines (db := dog_db) (all_synsets (WordNet := dog_db)) [] ∅
        = Ok lines
      ∧ written ≡ₚ lines
      ∧ Sorted String.le written
      ∧ StronglySorted String.le written
      ∧ (well_formed_terms (db := dog_db) →
         data_lines (output_text written) = written).
Proof.
  split; [exact dog_run_ok|].
  exact (data_lines_sorted (db := dog_db) out_argv empty_world _ dog_run_ok).
Defined.

Lemma header_count_witness :
  main (db := dog_db) out_argv empty_world
  = (Ok (), (main (db := dog_db) out_argv empty_world).2)
  ∧ ∃ written line3,
      files (main (db := dog_db) out_argv empty_world).2
        !! output_path_of out_argv = Some (output_text written)
      ∧ lines_of (output_text written) !! 2 = Some line3
      ∧ stated_count line3 = Some (length written)
      ∧ (well_formed_terms (db := dog_db) →
         data_lines (output_text written) = written
         ∧ stated_count line3
           = Some (length (data_lines (output_text written)))).
Proof.
  split; [exact dog_run_ok|].
  exact (header_count (db := dog_db) out_argv empty_world _ dog_run_ok).
Defined.

(** C8, claimed for every offset, fails: the sense of [wide_db] with offset
    100000000 is emitted with a sense-id field of 9 characters. *)
Lemma sense_id_nine_digits :
  offset (WordNet := wide_db) Na = 100000000%Z
  ∧ entry_line (db := wide_db) Na
    = Some ("colossus" +:+ tab +:+ "100000000" +:+ tab)
  ∧ second_column ("colossus" +:+ tab +:+ "100000000" +:+ tab) = "100000000"
  ∧ String.length "100000000" = 9
  ∧ String.length "100000000" ≠ 8.
Proof. repeat split; try (vm_compute; reflexivity). vm_compute. lia. Qed.

Lemma sense_id_field_witness :
  entry_line (db := dog_db) Na
  = Some ("dog" +:+ tab +:+ "00000001" +:+ tab +:+ "canine|mammal")
  ∧ (∀ term, canonical (db := dog_db) Na = Some term →
             occurs TAB term = false)
  ∧ second_column ("dog" +:+ tab +:+ "00000001" +:+ tab +:+ "canine|mammal")
    = format_08d (offset (WordNet := dog_db) Na)
  ∧ decimal_value
      (second_column ("dog" +:+ tab +:+ "00000001" +:+ tab +:+ "canine|mammal"))
    = Some (offset (WordNet := dog_db) Na)
  ∧ 8 ≤ String.length
          (second_column
             ("dog" +:+ tab +:+ "00000001" +:+ tab +:+ "canine|mammal"))
  ∧ ((0 ≤ offset (WordNet := dog_db) Na < 10 ^ 8)%Z →
     String.length
       (second_column ("dog" +:+ tab +:+ "00000001" +:+ tab +:+ "canine|mammal"))
     = 8
     ∧ all_digits
         (second_column
            ("dog" +:+ tab +:+ "00000001" +:+ tab +:+ "canine|mammal"))
       = true).
Proof.
  assert (entry_line (db := dog_db) Na
          = Some ("dog" +:+ tab +:+ "00000001" +:+ tab +:+ "canine|mammal"))
    as Hline by (vm_compute; reflexivity).
  assert (∀ term, canonical (db := dog_db) Na = Some term →
                  occurs TAB term = false) as Htab.
  { intros term Hterm. vm_compute in Hterm. injection Hterm as <-.
    vm_compute. reflexivity. }
  split; [exact Hline|]. split; [exact Htab|].
  exact (sense_id_field (db := dog_db) Na _ Hline Htab).
Defined.


(** [Nb] has no lemma and is the first hypernym of [Na], which is
    enumerated after [Nc] and is not skipped: the run aborts. *)
Lemma first_lemma_required_witness :
  (all_synsets (WordNet := nameless_db) = [Nc] ++ Na :: []
   ∧ (canonical (db := nameless_db) Na
        ∉ canonical (db := nameless_db) <$> [Nc])
   ∧ Nb ∈ ancestors (db := nameless_db) Na
   ∧ lemmas (WordNet := nameless_db) Nb = [])
  ∧ (main (db := nameless_db) out_argv full_disk_world).1 = Raise IndexError
  ∧ files (main (db := nameless_db) out_argv full_disk_world).2
    = files full_disk_world.
Proof.
  assert (canonical (db := nameless_db) Na
            ∉ canonical (db := nameless_db) <$> [Nc]) as Hfirst.
  { intros [Heq|Hin]%elem_of_cons; [|by apply elem_of_nil in Hin].
    vm_compute in Heq. discriminate Heq. }
  assert (Nb ∈ ancestors (db := nameless_db) Na) as Hanc
    by (vm_compute; left).
  split; [done|].
  destruct (first_lemma_required (db := nameless_db) out_argv full_disk_world)
    as [_ Habort].
  apply (Habort [Nc] Na []); [reflexivity|]. right. split; [exact Hfirst|].
  exists Nb. split; [exact Hanc | reflexivity].
Defined.

Lemma dog_db_same_snapshot :
  same_snapshot dog_db dog_db_copy (λ x y, y = Some x).
Proof.
  split.
  - intros x y ->. split; [done|]. split; [done|].
    destruct x; simpl; repeat constructor.
  - simpl. repeat constructor.
Qed.


(** * Further properties of the script *)

(** ** The shape of a chain *)

Section chain_shape.
Context {Synset : Type} `{Finite Synset} {db : WordNet Synset}.
Implicit Types (synset root : Synset) (chain : list string).

(** X1. The chain follows first-listed hypernyms only: its entry at position
    [i] is the canonical term of the synset [i + 1] first-hypernym steps
    above the sense. *)
Theorem chain_follows_first_hypernyms synset chain i term :
  get_hypernym_chain synset = Ok chain →
  chain !! i = Some term →
  ∃ p, iter_first_hypernym (S i) synset = Some p ∧ canonical p = Some term.
Proof.
  intros Hchain Hi.
  pose proof (get_hypernym_chain_ancestors synset) as Hanc.
  rewrite Hchain in Hanc.
  destruct (Forall2_lookup_r _ _ _ _ _ Hanc Hi) as (p & Hp & Hterm).
  exists p. split; [|done]. by eapply ancestors_loop_iter.
Qed.

(** X2. The chain is empty exactly for a sense without hypernyms: the first
    parent is never rejected, the visited set being empty at the start. *)
Theorem empty_chain_iff_root synset :
  get_hypernym_chain synset = Ok [] ↔ hypernyms synset = [].
Proof.
  unfold get_hypernym_chain. simpl. split.
  - destruct (hypernyms synset) as [|parent hs]; [done|].
    rewrite decide_False by set_solver.
    destruct (lemmas parent) as [|l ls]; [done|]. intros Hloop.
    pose proof (loop_ancestors (card Synset) [name l] parent
                  (∅ ∪ {[offset parent]})) as Hspec.
    rewrite Hloop in Hspec. destruct Hspec as (terms & _ & Heq).
    by destruct terms.
  - by intros ->.
Qed.

Lemma iter_first_hypernym_prefix a b synset :
  is_Some (iter_first_hypernym (a + b) synset) →
  is_Some (iter_first_hypernym a synset).
Proof.
  rewrite iter_first_hypernym_add.
  destruct (iter_first_hypernym a synset); [by eexists|]. by intros [? ?].
Qed.

(** Two first-hypernym iterates that coincide at different step counts put
    the walk on a cycle: every iterate exists. *)
Lemma iter_first_hypernym_collision a b synset :
  a < b → is_Some (iter_first_hypernym b synset) →
  iter_first_hypernym b synset = iter_first_hypernym a synset →
  ∀ k, is_Some (iter_first_hypernym k synset).
Proof.
  intros Hab Hb Heq k. induction (lt_wf k) as [k _ IH].
  destruct (decide (k ≤ b)) as [Hle|Hgt].
  { apply (iter_first_hypernym_prefix k (b - k)).
    by replace (k + (b - k)) with b by lia. }
  replace k with (b + (k - b)) by lia.
  rewrite iter_first_hypernym_add, Heq, <-iter_first_hypernym_add.
  apply IH. lia.
Qed.

(** X3. Up to the root: when the first hypernyms lead from the sense to a
    synset without hypernyms in [n] steps, and identifiers identify senses,
    the walk takes all [n] steps; the chain, if the lemmas are there, has
    [n] entries. *)
Theorem chain_reaches_root synset root n :
  Inj (=) (=) offset →
  iter_first_hypernym n synset = Some root →
  hypernyms root = [] →
  length (ancestors synset) = n
  ∧ ∀ chain, get_hypernym_chain synset = Ok chain → length chain = n.
Proof.
  intros Hinj Hroot Hnone.
  assert (length (ancestors synset) = n) as Hlen; [|split; [done|]].
  - set (path := ancestors synset).
    assert (iter_first_hypernym (S n) synset = None) as Hend.
    { replace (S n) with (n + 1) by lia.
      rewrite iter_first_hypernym_add, Hroot. simpl.
      unfold first_hypernym. by rewrite Hnone. }
    assert (∀ k, n < k → iter_first_hypernym k synset = None) as Hafter.
    { intros k Hk.
      destruct (iter_first_hypernym k synset) as [q|] eqn:Hq; [|done].
      destruct (iter_first_hypernym_prefix (S n) (k - S n) synset)
        as [? Hsome].
      { replace (S n + (k - S n)) with k by lia. by eexists. }
      congruence. }
    assert (length path ≤ n) as Hle.
    { destruct (decide (length path ≤ n)) as [|Hgt]; [done|]. exfalso.
      destruct (lookup_lt_is_Some_2 path n) as [q Hq]; [lia|].
      apply ancestors_loop_iter in Hq. congruence. }
    destruct (decide (length path = n)) as [|Hne]; [done|]. exfalso.
    assert (is_Some (iter_first_hypernym (S (length path)) synset))
      as [parent Hparent].
    { apply (iter_first_hypernym_prefix _ (n - S (length path))).
      replace (S (length path) + (n - S (length path))) with n by lia.
      by eexists. }
    destruct (ancestors_loop_stop (S (card Synset)) synset ∅ parent
                card_fuel_enough Hparent) as [Hin|Hin]; [set_solver|].
    apply list_elem_of_fmap in Hin as (q & Hq%Hinj & Hin). subst q.
    apply list_elem_of_lookup in Hin as [j Hj].
    pose proof (lookup_lt_Some _ _ _ Hj) as Hjlen.
    apply ancestors_loop_iter in Hj.
    destruct (iter_first_hypernym_collision (S j) (S (length path)) synset)
      with (k := S n) as [? Hsome];
      [unfold path, ancestors; lia | by eexists | congruence |].
    congruence.
  - intros chain Hchain.
    pose proof (get_hypernym_chain_ancestors synset) as Hanc.
    rewrite Hchain in Hanc. apply Forall2_length in Hanc. congruence.
Qed.
End chain_shape.

(** ** Reading a data line back *)

Section line_reading.
Implicit Types (s t : string) (c : ascii).

Lemma count_char_app c s t :
  count_char c (s +:+ t) = count_char c s + count_char c t.
Proof.
  induction s as [|d s IH]; [done|]. rewrite str_app_cons. simpl.
  rewrite IH. lia.
Qed.

Lemma count_char_absent c s : occurs c s = false → count_char c s = 0.
Proof.
  induction s as [|d s IH]; [done|]. simpl.
  case_decide; [done|]. intros Hs. by rewrite IH.
Qed.

Lemma split_on_absent c s : occurs c s = false → split_on c s = [s].
Proof.
  induction s as [|d s IH]; [done|]. simpl.
  destruct (decide (c = d)) as [|Hne]; [done|]. intros Hs.
  rewrite decide_False by done. by rewrite IH.
Qed.

Lemma split_on_piece c s t :
  occurs c s = false →
  split_on c (s +:+ String c t) = s :: split_on c t.
Proof.
  induction s as [|d s IH]; intros Hs.
  - rewrite str_app_nil_l. simpl. by rewrite decide_True.
  - rewrite str_app_cons. simpl in *.
    destruct (decide (c = d)) as [|Hne]; [done|].
    rewrite decide_False by done. by rewrite IH.
Qed.

(** Splitting undoes joining, for pieces without the separator. *)
Lemma split_on_join c (pieces : list string) :
  pieces ≠ [] → Forall (λ t, occurs c t = false) pieces →
  split_on c (join (String c "") pieces) = pieces.
Proof.
  intros Hne Hpieces. unfold join.
  induction Hpieces as [|t pieces Ht Hpieces IH]; [done|].
  destruct pieces as [|t' pieces]; simpl.
  - by apply split_on_absent.
  - change (String c "" +:+ ?r) with (String c r).
    rewrite split_on_piece by done. f_equal. by apply IH.
Qed.

Lemma no_control_occurs c s :
  (N_of_ascii c < 32)%N → no_control s = true → occurs c s = false.
Proof.
  intros Hc. induction s as [|d s IH]; [done|]. simpl.
  intros [Hd Hs]%andb_true_iff. apply bool_decide_eq_true in Hd.
  case_decide as Heq; [subst d; lia|]. by apply IH.
Qed.

(** Lines ordered as strings have their first fields ordered the same way,
    when the fields have no control character: a tab sorts below every
    character of a field. *)
Lemma first_field_le s1 s2 r1 r2 :
  no_control s1 = true → no_control s2 = true →
  String.le (s1 +:+ tab +:+ r1) (s2 +:+ tab +:+ r2) → String.le s1 s2.
Proof.
  unfold String.le, String.leb. revert s2.
  induction s1 as [|c1 s1 IH]; intros [|c2 s2] H1 H2; simpl in *;
    try done.
  - apply andb_true_iff in H1 as [Hc1 _]. apply bool_decide_eq_true in Hc1.
    unfold Ascii.compare.
    replace (N_of_ascii c1 ?= N_of_ascii TAB)%N with Gt; [done|].
    symmetry. apply N.compare_gt_iff. change (N_of_ascii TAB) with 9%N. lia.
  - apply andb_true_iff in H1 as [_ H1]. apply andb_true_iff in H2 as [_ H2].
    destruct (Ascii.compare c1 c2); [by apply IH | done..].
Qed.

Lemma first_columns_sorted (l : list string) :
  StronglySorted String.le l →
  Forall (λ line, ∃ rest, line = first_column line +:+ tab +:+ rest
                          ∧ no_control (first_column line) = true) l →
  StronglySorted String.le (first_column <$> l).
Proof.
  induction 1 as [|x l Hl IH Hx]; intros Hshape; [constructor|].
  apply Forall_cons in Hshape as [(rx & Hx_eq & Hx_print) Hshape].
  rewrite fmap_cons. constructor; [by apply IH|].
  apply Forall_fmap, Forall_forall. intros y Hy. simpl.
  pose proof (proj1 (Forall_forall _ _) Hx y Hy) as Hxy.
  pose proof (proj1 (Forall_forall _ _) Hshape y Hy)
    as (ry & Hy_eq & Hy_print).
  rewrite Hx_eq, Hy_eq in Hxy. by eapply first_field_le.
Qed.
End line_reading.

(** ** The lines and the file, read by a consumer *)

Section file_reading.
Context {Synset : Type} `{Finite Synset} {db : WordNet Synset}.
Implicit Types (argv : list string) (w : world) (synset : Synset).

Lemma str_app_nonempty (s t : string) : s ≠ "" → s +:+ t ≠ "".
Proof. by destruct s. Qed.

Lemma chain_of_field_chain_str (chain : list string) :
  Forall (λ t, t ≠ "" ∧ occurs BAR t = false) chain →
  chain_of_field (chain_str chain) = chain.
Proof.
  intros Hchain. unfold chain_of_field, chain_str.
  destruct chain as [|t chain]; [done|].
  apply Forall_cons in Hchain as Hsplit. destruct Hsplit as [[Ht _] _].
  rewrite decide_False.
  - apply (split_on_join BAR); [done|].
    eapply Forall_impl; [exact Hchain|]. by intros ? [_ ?].
  - unfold join. destruct chain; simpl; [done|]. by apply str_app_nonempty.
Qed.

(** X4. A data line splits back into what it was made of: it has two tabs, its
    first field is the canonical term, its second field reads as the offset,
    and its third field splits at the bars into the chain. *)
Theorem data_line_round_trip synset line :
  splittable_terms →
  entry_line synset = Some line →
  ∃ term chain,
    canonical synset = Some term
    ∧ get_hypernym_chain synset = Ok chain
    ∧ count_char TAB line = 2
    ∧ first_column line = term
    ∧ decimal_value (second_column line) = Some (offset synset)
    ∧ chain_of_field (third_column line) = chain.
Proof.
  intros Hterms Hline. pose proof Hline as Hline'. unfold entry_line in Hline.
  destruct (canonical synset) as [term|] eqn:Hterm; [|done].
  destruct (get_hypernym_chain synset) as [chain|?|] eqn:Hchain; [|done..].
  injection Hline as <-. exists term, chain. split; [done|]. split; [done|].
  destruct (Hterms _ _ Hterm) as (_ & Htab & _).
  destruct (format_08d_spec (offset synset)) as (Hval & Hidtab & _).
  assert (Forall (λ t, t ≠ "" ∧ occurs TAB t = false ∧ occurs BAR t = false)
            chain) as Hclean.
  { pose proof (get_hypernym_chain_ancestors synset) as Hanc.
    rewrite Hchain in Hanc.
    eapply Forall2_Forall_r; [exact Hanc|]. apply Forall_forall.
    intros p _ t Ht. exact (Hterms p t Ht). }
  assert (occurs TAB (chain_str chain) = false) as Hcstab.
  { apply occurs_chain_str; [done|].
    eapply Forall_impl; [exact Hclean|]. by intros ? (_ & ? & _). }
  destruct (entry_line_columns _ _ _ Hline' Hterm Htab) as [Hfirst Hsecond].
  split.
  { unfold render_line. rewrite !count_char_app.
    rewrite (count_char_absent TAB term) by done.
    rewrite (count_char_absent TAB (format_08d _)) by done.
    by rewrite (count_char_absent TAB (chain_str chain)) by done. }
  split; [done|]. split; [by rewrite Hsecond|].
  unfold third_column, render_line.
  rewrite !after_tab_field by done.
  apply chain_of_field_chain_str.
  eapply Forall_impl; [exact Hclean|]. by intros ? (? & _ & ?).
Qed.

Lemma size_fresh_name (t : string) (X : gset string) :
  t ∉ X → size ({[t]} ∪ X) = S (size X).
Proof.
  intros Ht. rewrite size_union by set_solver. by rewrite size_singleton.
Qed.

Lemma kept_synsets_count noun_synsets (seen_names : gset string) :
  Forall (λ synset, is_Some (canonical synset)) noun_synsets →
  length (kept_synsets noun_synsets seen_names)
  = size (list_to_set (omap canonical noun_synsets) ∖ seen_names)
  ∧ length (kept_synsets noun_synsets seen_names) ≤ length noun_synsets.
Proof.
  intros Hall. revert seen_names.
  induction Hall as [|s rest [t Ht] _ IH]; intros seen_names; simpl.
  { split; [|done]. symmetry. apply size_empty_iff. set_solver. }
  rewrite Ht. simpl.
  case_decide as Hseen.
  - destruct (IH seen_names) as [-> Hle]. split; [|lia]. f_equal. set_solver.
  - destruct (IH (seen_names ∪ {[t]})) as [Hsize Hle]. simpl.
    split; [|lia]. rewrite Hsize.
    change (list_omap Synset string canonical rest)
      with (omap canonical rest).
    set (names := list_to_set (omap canonical rest)).
    assert (({[t]} ∪ names) ∖ seen_names
            = {[t]} ∪ names ∖ (seen_names ∪ {[t]})) as ->.
    { apply set_eq. intros x.
      rewrite !elem_of_union, !elem_of_difference, !elem_of_union,
        !elem_of_singleton.
      destruct (decide (x = t)) as [->|]; naive_solver. }
    subst names. symmetry. apply size_fresh_name. set_solver.
Qed.

(** X5. The number of data lines written is the number of different canonical
    terms of the enumerated senses, at most the number of senses. *)
Theorem line_count argv w w' :
  main argv w = (Ok (), w') →
  ∃ written,
    files w' !! output_path_of argv = Some (output_text written)
    ∧ length written
      = size (list_to_set (omap canonical all_synsets) : gset string)
    ∧ length written ≤ length all_synsets.
Proof.
  intros (lines & Hlines & Hfile)%main_ok.
  exists (sort lines). split; [done|].
  destruct (collect_lines_kept _ _ _ _ Hlines) as (new & Heq & Hnew & Hall).
  simpl in Heq. subst new. apply Forall2_length in Hnew.
  destruct (kept_synsets_count all_synsets ∅ Hall) as [Hsize Hle].
  unfold sort. rewrite merge_sort_Permutation, <-Hnew.
  split; [|done]. rewrite Hsize. f_equal. set_solver.
Qed.

Lemma printable_well_formed : printable_terms → well_formed_terms.
Proof.
  intros Hprint synset term Hterm. specialize (Hprint _ _ Hterm).
  split; apply no_control_occurs; done.
Qed.

Lemma strongly_sorted_strict {A} (R R' : relation A) (l : list A) :
  (∀ a b, R a b → a ≠ b → R' a b) →
  StronglySorted R l → NoDup l → StronglySorted R' l.
Proof.
  intros Hstrict. induction 1 as [|x l Hl IH Hx]; intros Hnd; [constructor|].
  apply NoDup_cons in Hnd as [Hnotin Hnd]. constructor; [by apply IH|].
  apply Forall_forall. intros y Hy. apply Hstrict.
  - by eapply Forall_forall in Hx.
  - by intros ->.
Qed.

(** X6. Over a vocabulary without control characters, the term fields of the
    data lines of the file increase strictly from line to line: the file is
    sorted by term and can be searched by it. *)
Theorem terms_increase argv w w' :
  printable_terms →
  main argv w = (Ok (), w') →
  ∃ text,
    files w' !! output_path_of argv = Some text
    ∧ StronglySorted (λ a b, String.ltb a b = true)
        (first_column <$> data_lines text).
Proof.
  intros Hprint (lines & Hlines & Hfile)%main_ok.
  pose proof (printable_well_formed Hprint) as Hwf.
  exists (output_text (sort lines)). split; [done|].
  destruct (data_lines_output lines Hwf Hlines) as [_ ->].
  destruct (collect_lines_kept _ _ _ _ Hlines) as (new & Heq & Hnew & Hall).
  simpl in Heq. subst new.
  destruct (kept_synsets_fresh all_synsets ∅) as [Hnd Hfresh].
  (* every line is a printable term, a tab, and the rest *)
  assert (Forall (λ line, ∃ rest, line = first_column line +:+ tab +:+ rest
                                  ∧ no_control (first_column line) = true)
            (sort lines)) as Hshape.
  { unfold sort. rewrite merge_sort_Permutation.
    eapply Forall2_Forall_r; [exact Hnew|]. apply Forall_forall.
    intros s _ line Hline.
    destruct (entry_line_term s line Hline) as [term Hterm].
    destruct (Hwf _ _ Hterm) as [Htab _].
    destruct (entry_line_columns _ _ _ Hline Hterm Htab) as [Hfirst _].
    rewrite Hfirst.
    unfold entry_line in Hline. rewrite Hterm in Hline.
    destruct (get_hypernym_chain s); [|done..].
    injection Hline as <-. eexists. split; [reflexivity|].
    by eapply Hprint. }
  assert (NoDup (first_column <$> sort lines)) as Hdistinct.
  { unfold sort. rewrite merge_sort_Permutation.
    assert (canonical <$> kept_synsets all_synsets ∅
            = Some <$> (first_column <$> lines)) as Hcols.
    { apply first_columns_nodup; [done..|].
      intros s (term & -> & _)%Hfresh. by eexists. }
    rewrite Hcols in Hnd. by apply NoDup_fmap_1 in Hnd. }
  assert (StronglySorted String.le (first_column <$> sort lines)) as Hsorted.
  { apply first_columns_sorted; [|done].
    apply StronglySorted_merge_sort; apply _. }
  eapply strongly_sorted_strict; [|exact Hsorted|exact Hdistinct].
  intros a b Hle Hne. unfold String.le, String.leb in Hle.
  unfold String.ltb.
  destruct (String.compare a b) eqn:Hcmp; [|done..].
  by apply String.compare_eq_iff in Hcmp.
Qed.
End file_reading.

(** ** What a run touches *)

Section run_effects.
Context {Synset : Type} `{Finite Synset} {db : WordNet Synset}.
Implicit Types (argv : list string) (w : world).

(** X7. A run changes no file but the one at the output path, whatever its
    outcome; when it succeeds, the file at the output path holds the
    generated text, the same for every path and whatever the file held
    before (nothing is appended or merged). *)
Theorem only_target_written :
  (∀ argv w p, p ≠ output_path_of argv →
               files (main argv w).2 !! p = files w !! p)
  ∧ ∃ text, ∀ argv w w',
      main argv w = (Ok (), w') →
      files w' = <[output_path_of argv := text]> (files w)
      ∧ unwritable w' = unwritable w.
Proof.
  split.
  - intros argv w p Hp. rewrite main_outcome. cbv zeta.
    destruct (collect_lines all_synsets [] ∅) as [lines|e|]; [|done..].
    case_decide; [done|].
    destruct (quota w); [case_decide|]; simpl; by rewrite lookup_insert_ne.
  - exists (match collect_lines all_synsets [] ∅ with
            | Ok lines => output_text (sort lines)
            | _ => ""
            end).
    intros argv w w'. rewrite main_outcome. cbv zeta.
    destruct (collect_lines all_synsets [] ∅) as [lines|e|]; [|done..].
    case_decide; [done|].
    destruct (quota w); [case_decide; [|done]|]; by intros [= <-].
Qed.

End run_effects.

(** ** Only first lemmas and first hypernyms are read *)

Section first_entries.
Context {S1 S2 : Type} `{Finite S1} `{Finite S2}.
Context (db1 : WordNet S1) (db2 : WordNet S2) (R : S1 → S2 → Prop).
Hypothesis Hfirst : same_first_entries db1 db2 R.

Lemma first_lemma_same x y :
  canonical (db := db1) x = canonical (db := db2) y →
  match lemmas (WordNet := db1) x, lemmas (WordNet := db2) y with
  | [], [] => True
  | l1 :: _, l2 :: _ => name l1 = name l2
  | _, _ => False
  end.
Proof.
  unfold canonical.
  destruct (lemmas x) as [|l1 ?], (lemmas y) as [|l2 ?]; simpl; try done.
  by intros [= ?].
Qed.

Lemma loop_first_entries fuel chain x y seen :
  R x y →
  get_hypernym_chain_loop (db := db1) fuel chain x seen
  = get_hypernym_chain_loop (db := db2) fuel chain y seen.
Proof.
  destruct Hfirst as [Hrel _].
  revert chain x y seen.
  induction fuel as [|fuel IH]; intros chain x y seen Hxy; simpl; [done|].
  destruct (Hrel x y Hxy) as (_ & _ & Hhyp). unfold first_hypernym in Hhyp.
  destruct (hypernyms x) as [|p ps], (hypernyms y) as [|q qs];
    simpl in Hhyp; inversion Hhyp as [? ? Hpq|]; subst; [done|].
  destruct (Hrel p q Hpq) as (-> & Hcan%first_lemma_same & _).
  case_decide; [done|].
  destruct (lemmas p) as [|l1 ?], (lemmas q) as [|l2 ?]; try done.
  rewrite Hcan. by apply IH.
Qed.

Lemma chain_first_entries x y :
  R x y →
  get_hypernym_chain (db := db1) x = get_hypernym_chain (db := db2) y.
Proof.
  intros Hxy. unfold get_hypernym_chain.
  set (fuel := S (card S1) `max` S (card S2)).
  rewrite <-(loop_fuel_mono (db := db1) (S (card S1)) fuel);
    [|apply loop_fuel_enough, card_fuel_enough | lia].
  rewrite <-(loop_fuel_mono (db := db2) (S (card S2)) fuel);
    [|apply loop_fuel_enough, card_fuel_enough | lia].
  by apply loop_first_entries.
Qed.

Lemma collect_first_entries l1 l2 lines seen_names :
  Forall2 R l1 l2 →
  collect_lines (db := db1) l1 lines seen_names
  = collect_lines (db := db2) l2 lines seen_names.
Proof.
  intros Hl. revert lines seen_names.
  induction Hl as [|x y l1 l2 Hxy _ IH]; intros lines seen_names; simpl;
    [done|].
  destruct Hfirst as [Hrel _].
  destruct (Hrel x y Hxy) as (-> & Hcan%first_lemma_same & _).
  destruct (lemmas x) as [|n1 ?], (lemmas y) as [|n2 ?]; try done.
  rewrite Hcan. case_decide; [apply IH|].
  rewrite (chain_first_entries x y Hxy).
  destruct (get_hypernym_chain y); simpl; [apply IH | done..].
Qed.

(** X10. The run reads of each synset its offset, the name of its first lemma
    and its first hypernym, nothing else: two databases that agree on
    these, and on the enumeration, give the same run, whatever their other
    lemmas and hypernyms. *)
Theorem only_first_entries_matter argv w :
  main (db := db1) argv w = main (db := db2) argv w.
Proof.
  pose proof Hfirst as [_ Hall].
  rewrite !main_outcome. cbv zeta.
  rewrite (Forall2_length _ _ _ Hall).
  by rewrite (collect_first_entries _ _ [] ∅ Hall).
Qed.
End first_entries.

(** ** The further properties on the small databases *)

Lemma chain_follows_first_hypernyms_witness :
  get_hypernym_chain (db := dog_db) Na = Ok ["canine"; "mammal"]
  ∧ ["canine"; "mammal"] !! 1 = Some "mammal"
  ∧ ∃ p, iter_first_hypernym (db := dog_db) 2 Na = Some p
         ∧ canonical (db := dog_db) p = Some "mammal".
Proof.
  split; [exact dog_chain|]. split; [reflexivity|].
  exact (chain_follows_first_hypernyms (db := dog_db) Na _ 1 "mammal"
           dog_chain eq_refl).
Defined.

Lemma dog_db_offset_inj : Inj (=) (=) (offset (WordNet := dog_db)).
Proof. intros [] [] Heq; vm_compute in Heq; congruence. Qed.

Lemma chain_reaches_root_witness :
  Inj (=) (=) (offset (WordNet := dog_db))
  ∧ iter_first_hypernym (db := dog_db) 2 Na = Some Nc
  ∧ hypernyms (WordNet := dog_db) Nc = []
  ∧ length (ancestors (db := dog_db) Na) = 2
  ∧ ∀ chain, get_hypernym_chain (db := dog_db) Na = Ok chain →
             length chain = 2.
Proof.
  split; [exact dog_db_offset_inj|]. split; [reflexivity|].
  split; [reflexivity|].
  exact (chain_reaches_root (db := dog_db) Na Nc 2 dog_db_offset_inj
           eq_refl eq_refl).
Defined.

Lemma node_db_splittable off names hyp all :
  (∀ x, match names x with
        | [] => True
        | term :: _ => term ≠ "" ∧ occurs TAB term = false
                       ∧ occurs BAR term = false
        end) →
  splittable_terms (db := node_db off names hyp all).
Proof.
  intros Hnames x term. specialize (Hnames x).
  unfold canonical. simpl. destruct (names x); [done|].
  by intros [= <-].
Qed.

Lemma dog_db_splittable : splittable_terms (db := dog_db).
Proof. apply node_db_splittable. by intros []. Qed.

Lemma data_line_round_trip_witness :
  splittable_terms (db := dog_db)
  ∧ entry_line (db := dog_db) Na
    = Some ("dog" +:+ tab +:+ "00000001" +:+ tab +:+ "canine|mammal")
  ∧ ∃ term chain,
      canonical (db := dog_db) Na = Some term
      ∧ get_hypernym_chain (db := dog_db) Na = Ok chain
      ∧ count_char TAB
          ("dog" +:+ tab +:+ "00000001" +:+ tab +:+ "canine|mammal") = 2
      ∧ first_column
          ("dog" +:+ tab +:+ "00000001" +:+ tab +:+ "canine|mammal") = term
      ∧ decimal_value
          (second_column
             ("dog" +:+ tab +:+ "00000001" +:+ tab +:+ "canine|mammal"))
        = Some (offset (WordNet := dog_db) Na)
      ∧ chain_of_field
          (third_column
             ("dog" +:+ tab +:+ "00000001" +:+ tab +:+ "canine|mammal"))
        = chain.
Proof.
  assert (entry_line (db := dog_db) Na
          = Some ("dog" +:+ tab +:+ "00000001" +:+ tab +:+ "canine|mammal"))
    as Hline by (vm_compute; reflexivity).
  split; [exact dog_db_splittable|]. split; [exact Hline|].
  exact (data_line_round_trip (db := dog_db) Na _ dog_db_splittable Hline).
Defined.

Lemma line_count_witness :
  main (db := bank_db) out_argv empty_world
  = (Ok (), (main (db := bank_db) out_argv empty_world).2)
  ∧ ∃ written,
      files (main (db := bank_db) out_argv empty_world).2
        !! output_path_of out_argv = Some (output_text written)
      ∧ length written
        = size (list_to_set
                  (omap (canonical (db := bank_db))
                     (all_synsets (WordNet := bank_db))) : gset string)
      ∧ length written ≤ length (all_synsets (WordNet := bank_db)).
Proof.
  split; [exact bank_run_ok|].
  exact (line_count (db := bank_db) out_argv empty_world _ bank_run_ok).
Defined.

Lemma node_db_printable off names hyp all :
  (∀ x, match names x with
        | [] => True
        | term :: _ => no_control term = true
        end) →
  printable_terms (db := node_db off names hyp all).
Proof.
  intros Hnames x term. specialize (Hnames x).
  unfold canonical. simpl. destruct (names x); [done|].
  by intros [= <-].
Qed.

Lemma dog_db_printable : printable_terms (db := dog_db).
Proof. apply node_db_printable. by intros []. Qed.

Lemma terms_increase_witness :
  printable_terms (db := dog_db)
  ∧ main (db := dog_db) out_argv empty_world
    = (Ok (), (main (db := dog_db) out_argv empty_world).2)
  ∧ ∃ text,
      files (main (db := dog_db) out_argv empty_world).2
        !! output_path_of out_argv = Some text
      ∧ StronglySorted (λ a b, String.ltb a b = true)
          (first_column <$> data_lines text).
Proof.
  split; [exact dog_db_printable|]. split; [exact dog_run_ok|].
  exact (terms_increase (db := dog_db) out_argv empty_world _
           dog_db_printable dog_run_ok).
Defined.

Lemma dog_db_alt_first_entries : same_first_entries dog_db dog_db_alt eq.
Proof.
  split.
  - intros x y <-. split; [done|]. split; [by destruct x|].
    destruct x; by constructor.
  - simpl. repeat constructor.
Qed.

Lemma only_first_entries_matter_witness :
  same_first_entries dog_db dog_db_alt eq
  ∧ main (db := dog_db) out_argv full_disk_world
    = main (db := dog_db_alt) out_argv full_disk_world.
Proof.
  split; [exact dog_db_alt_first_entries|].
  exact (only_first_entries_matter dog_db dog_db_alt _
           dog_db_alt_first_entries out_argv full_disk_world).
Defined.

(** ** The visited set *)

Section visited_facts.
Context {Synset : Type} `{Finite Synset} {db : WordNet Synset}.
Implicit Types (synset current : Synset) (seen : gset Z).



End visited_facts.



(** ** Running again *)

Section rerun.
Context {S1 S2 : Type} `{Finite S1} `{Finite S2}.
Context (db1 : WordNet S1) (db2 : WordNet S2) (R : S1 → S2 → Prop).
Hypothesis Hsame : same_snapshot db1 db2 R.

(** X8. Running the script again over the same snapshot regenerates the
    same file: after a successful run on a device without limit, a second
    run, over a database that holds the same snapshot as the first, with
    the same arguments, succeeds and leaves every file as the first run
    left it. *)
Theorem rerun_same_snapshot argv w w' :
  quota w = None →
  main (db := db1) argv w = (Ok (), w') →
  ∃ w'', main (db := db2) argv w' = (Ok (), w'') ∧ files w'' = files w'.
Proof.
  pose proof Hsame as [_ Hall].
  intros Hquota. rewrite !main_outcome. cbv zeta. rewrite Hquota.
  rewrite <-(Forall2_length _ _ _ Hall).
  rewrite <-(collect_same_snapshot db1 db2 R Hsame _ _ [] ∅ Hall).
  destruct (collect_lines all_synsets [] ∅) as [lines|e|]; [|done..].
  case_decide as Hopen; [done|]. intros [= <-]. simpl.
  rewrite decide_False by done. eexists. split; [done|]. simpl.
  by rewrite insert_insert_eq.
Qed.
End rerun.

Lemma rerun_same_snapshot_witness :
  same_snapshot dog_db dog_db_copy (λ x y, y = Some x)
  ∧ quota empty_world = None
  ∧ main (db := dog_db) out_argv empty_world
    = (Ok (), (main (db := dog_db) out_argv empty_world).2)
  ∧ ∃ w'',
      main (db := dog_db_copy) out_argv
        (main (db := dog_db) out_argv empty_world).2 = (Ok (), w'')
      ∧ files w'' = files (main (db := dog_db) out_argv empty_world).2.
Proof.
  split; [exact dog_db_same_snapshot|]. split; [reflexivity|].
  split; [exact dog_run_ok|].
  exact (rerun_same_snapshot dog_db dog_db_copy _ dog_db_same_snapshot
           out_argv empty_world _ eq_refl dog_run_ok).
Defined.
